(** * Option pricing engines: analytic, lattice and simulation

    A shallow embedding of [models/black_scholes.py], [binomial.py] and
    [models/monte_carlo.py].  Python floats are read as real numbers
    ([exp], [ln], [sqrt] are the real functions), numpy arrays as lists,
    Python exceptions as the [Raise] case of a result type, and the ambient
    numpy random generator as an explicit state threaded through the
    simulation engine. *)

From Stdlib Require Import Reals Lra Lia List Ascii String Arith Psatz.
Import ListNotations.
Open Scope string_scope.
Open Scope list_scope.
Open Scope R_scope.

(** ** Python values, exceptions and array helpers *)

Inductive exn : Type :=
| ZeroDivisionError (msg : string)
| ValueError (msg : string)
| IndexError (msg : string).

Inductive result (A : Type) : Type :=
| Ok (a : A)
| Raise (e : exn).

Arguments Ok {A} a.
Arguments Raise {A} e.

Definition bind {A B : Type} (m : result A) (k : A -> result B) : result B :=
  match m with
  | Ok a => k a
  | Raise e => Raise e
  end.

Notation "x <- m ;; k" := (bind m (fun x => k))
  (at level 61, m at next level, right associativity).

Definition message (e : exn) : string :=
  match e with
  | ZeroDivisionError msg => msg
  | ValueError msg => msg
  | IndexError msg => msg
  end.

(** The text [value] occurs in the message [msg]. *)
Definition names (msg value : string) : Prop :=
  exists pre post : string, msg = (pre ++ value ++ post)%string.

(** The character [c] occurs in [s]. *)
Fixpoint occurs (c : Ascii.ascii) (s : string) : bool :=
  match s with
  | EmptyString => false
  | String c' s' => Ascii.eqb c c' || occurs c s'
  end.

(** The call failed, with an exception whose message names [value]. *)
Definition fails_naming {A : Type} (res : result A) (value : string) : Prop :=
  exists e : exn, res = Raise e /\ names (message e) value.

(** [a / n] for a Python float [a] and a Python int [n]: the one division of
    the lattice and simulation engines that raises on a zero divisor (every
    other quotient there has a numpy scalar on one side). *)
Definition truediv (a : R) (n : nat) : result R :=
  match n with
  | O => Raise (ZeroDivisionError "float division by zero")
  | _ => Ok (a / INR n)
  end.

(** [l[lo:hi]] for non-negative bounds. *)
Definition slice {A : Type} (lo hi : nat) (l : list A) : list A :=
  firstn (hi - lo) (skipn lo l).

(** Element-wise binary operation on two arrays of one length. *)
Fixpoint map2 {A B C : Type} (f : A -> B -> C) (l : list A) (l' : list B) : list C :=
  match l, l' with
  | a :: t, b :: t' => f a b :: map2 f t t'
  | _, _ => []
  end.

(** [a[0]]. *)
Definition getitem0 (a : list R) : result R :=
  match a with
  | v :: _ => Ok v
  | [] => Raise (IndexError "index 0 is out of bounds for axis 0 with size 0")
  end.

(** [np.mean]. *)
Definition np_mean (a : list R) : R :=
  fold_right Rplus 0 a / INR (List.length a).

(** [a / b] for two Python floats. *)
Definition float_div (a b : R) : result R :=
  if Req_EM_T b 0
  then Raise (ZeroDivisionError "float division by zero")
  else Ok (a / b).

(** [x <= y] as the boolean a Python [if] tests. *)
Definition float_le (x y : R) : bool :=
  if Rle_dec x y then true else false.

(** [a[t] = v], for an index within the array. *)
Fixpoint set_item (t : nat) (v : R) (a : list R) : list R :=
  match a, t with
  | [], _ => []
  | _ :: tl, O => v :: tl
  | h :: tl, Datatypes.S t' => h :: set_item t' v tl
  end.

(** A [dict] literal with string keys, in insertion order. *)
Definition dict : Type := list (string * R).


(** [d[k]], [None] standing for the [KeyError] of a missing key. *)
Fixpoint dict_get (d : dict) (k : string) : option R :=
  match d with
  | [] => None
  | (k', v) :: rest => if String.eqb k k' then Some v else dict_get rest k
  end.

(** ** Lattice engine ([binomial.py]) *)

Module Binomial.

(** The two arrays the backward pass carries. *)
Record lattice : Type := mkLattice {
  ST : list R;
  option_values : list R
}.

Section Engine.

(** [binomial_call] and [binomial_put] are the same text up to the intrinsic
    value: [ST - K] in the first, [K - ST] in the second. *)
Variable intrinsic : R -> R.
Variables (steps : nat) (option_type : string).

Section Tree.

Variables (S r sigma : R).

Variable dt : R.

Definition u : R := exp (sigma * sqrt dt).
Definition d : R := 1 / u.
Definition p : R := (exp (r * dt) - d) / (u - d).

Definition terminal : lattice :=
  let ST := map (fun j => S * u ^ j * d ^ (steps - j)) (seq 0 (steps + 1)) in
  mkLattice ST (map (fun s => Rmax (intrinsic s) 0) ST).

(** One pass of the [for] body, at loop index [i]. *)
Definition body (st : lattice) (i : nat) : lattice :=
  let ST := map (fun s => s / u) (firstn (i + 1) (ST st)) in
  let option_values :=
    map2 (fun hi lo => exp (- r * dt) * (p * hi + (1 - p) * lo))
         (slice 1 (i + 2) (option_values st))
         (slice 0 (i + 1) (option_values st)) in
  if String.eqb option_type "American"
  then mkLattice ST (map2 Rmax option_values (map intrinsic ST))
  else mkLattice ST option_values.

(** Entry [k] of the discounted expectation the body computes from [st]. *)
Definition continuation (st : lattice) (k : nat) : R :=
  exp (- r * dt) * (p * nth (k + 1) (option_values st) 0
                    + (1 - p) * nth k (option_values st) 0).

(** The state once the loop has run its indices [steps-1], ..., [i]. *)
Definition state_after (i : nat) : lattice :=
  fold_left body (rev (seq i (steps - i))) terminal.

(** [for i in range(steps - 1, -1, -1)]. *)
Definition backward : lattice :=
  fold_left body (rev (seq 0 steps)) terminal.

End Tree.

Definition price (S T r sigma : R) : result R :=
  dt <- truediv T steps ;;
  getitem0 (option_values (backward S r sigma dt)).

(** [binomial_greeks_call] and [binomial_greeks_put]: bump and reprice. *)
Definition greeks (S T r sigma : R) : result dict :=
  let dS := 0.01 * S in
  let dT := 1 / 365 in
  let dSigma := 0.01 in
  let dR := 0.0001 in
  base_price <- price S T r sigma ;;
  price_up <- price (S + dS) T r sigma ;;
  price_down <- price (S - dS) T r sigma ;;
  let delta := (price_up - price_down) / (2 * dS) in
  let gamma := (price_up - 2 * base_price + price_down) / (dS ^ 2) in
  let T_theta := Rmax (T - dT) 1e-5 in
  price_theta <- price S T_theta r sigma ;;
  let theta := (price_theta - base_price) / dT in
  price_vega_up <- price S T r (sigma + dSigma) ;;
  price_vega_down <- price S T r (sigma - dSigma) ;;
  let vega := (price_vega_up - price_vega_down) / (2 * dSigma) in
  price_rho_up <- price S T (r + dR) sigma ;;
  price_rho_down <- price S T (r - dR) sigma ;;
  let rho := (price_rho_up - price_rho_down) / (2 * dR) in
  Ok [("delta", delta); ("gamma", gamma); ("theta", theta);
      ("vega", vega); ("rho", rho)].

End Engine.

Definition binomial_call (S K T r sigma : R) (steps : nat) (option_type : string)
  : result R :=
  price (fun s => s - K) steps option_type S T r sigma.

Definition binomial_greeks_call (S K T r sigma : R) (steps : nat)
  (option_type : string) : result dict :=
  greeks (fun s => s - K) steps option_type S T r sigma.

Definition binomial_put (S K T r sigma : R) (steps : nat) (option_type : string)
  : result R :=
  price (fun s => K - s) steps option_type S T r sigma.

Definition binomial_greeks_put (S K T r sigma : R) (steps : nat)
  (option_type : string) : result dict :=
  greeks (fun s => K - s) steps option_type S T r sigma.

End Binomial.

(** ** Analytic engine ([models/black_scholes.py]) *)

Module BlackScholes.

(** [scipy.stats.norm.pdf]: the standard normal density. *)
Definition norm_pdf (x : R) : R := exp (- x ^ 2 / 2) / sqrt (2 * PI).

Lemma norm_pdf_continuity : continuity norm_pdf.
Proof. unfold norm_pdf. reg. Qed.

Definition norm_pdf_integrable (a b : R) : Riemann_integrable norm_pdf a b :=
  match Rle_dec a b with
  | left h =>
      continuity_implies_RiemannInt h (fun x _ => norm_pdf_continuity x)
  | right h =>
      RiemannInt_P1
        (continuity_implies_RiemannInt
           (Rlt_le _ _ (Rnot_le_lt _ _ h)) (fun x _ => norm_pdf_continuity x))
  end.

(** [scipy.stats.norm.cdf]: the standard normal distribution function, the
    mass 1/2 of the half line plus the integral of the density from 0. *)
Definition norm_cdf (x : R) : R :=
  1 / 2 + RiemannInt (norm_pdf_integrable 0 x).

Definition degenerate (S K T sigma : R) : bool :=
  float_le T 0 || float_le sigma 0 || float_le S 0 || float_le K 0.

Definition black_scholes_call (S K T r sigma : R) : result R :=
  if degenerate S K T sigma then Ok 0 else
  q <- float_div S K ;;
  let d1 := (ln q + (r + 0.5 * sigma ^ 2) * T) / (sigma * sqrt T) in
  let d2 := d1 - sigma * sqrt T in
  Ok (S * norm_cdf d1 - K * exp (- r * T) * norm_cdf d2).

Definition black_scholes_greeks_call (S K T r sigma : R) : result dict :=
  q <- float_div S K ;;
  let d1 := (ln q + (r + 0.5 * sigma ^ 2) * T) / (sigma * sqrt T) in
  let d2 := d1 - sigma * sqrt T in
  let delta := norm_cdf d1 in
  let gamma := norm_pdf d1 / (S * sigma * sqrt T) in
  let theta := - S * norm_pdf d1 * sigma / (2 * sqrt T)
               - r * K * exp (- r * T) * norm_cdf d2 in
  let vega := S * norm_pdf d1 * sqrt T in
  let rho := K * T * exp (- r * T) * norm_cdf d2 in
  Ok [("delta", delta); ("gamma", gamma); ("theta", theta);
      ("vega", vega); ("rho", rho)].

Definition black_scholes_put (S K T r sigma : R) : result R :=
  if degenerate S K T sigma then Ok 0 else
  q <- float_div S K ;;
  let d1 := (ln q + (r + 0.5 * sigma ^ 2) * T) / (sigma * sqrt T) in
  let d2 := d1 - sigma * sqrt T in
  Ok (K * exp (- r * T) * norm_cdf (- d2) - S * norm_cdf (- d1)).

Definition black_scholes_greeks_put (S K T r sigma : R) : result dict :=
  q <- float_div S K ;;
  let d1 := (ln q + (r + 0.5 * sigma ^ 2) * T) / (sigma * sqrt T) in
  let d2 := d1 - sigma * sqrt T in
  let delta := norm_cdf d1 - 1 in
  let gamma := norm_pdf d1 / (S * sigma * sqrt T) in
  let theta := - S * norm_pdf d1 * sigma / (2 * sqrt T)
               + r * K * exp (- r * T) * norm_cdf (- d2) in
  let vega := S * norm_pdf d1 * sqrt T in
  let rho := - K * T * exp (- r * T) * norm_cdf (- d2) in
  Ok [("delta", delta); ("gamma", gamma); ("theta", theta);
      ("vega", vega); ("rho", rho)].

End BlackScholes.

(** ** Simulation engine ([models/monte_carlo.py]) *)

Module MonteCarlo.

(** The state of numpy's process-wide generator, seen as the standard-normal
    variates it will hand out, in order. *)
Definition rng : Type := nat -> R.

(** Code that may read and advance the generator and may raise. *)
Definition sim (A : Type) : Type := rng -> result A * rng.

Definition ret {A : Type} (a : A) : sim A := fun g => (Ok a, g).

Definition raise {A : Type} (e : exn) : sim A := fun g => (Raise e, g).

Definition lift {A : Type} (m : result A) : sim A := fun g => (m, g).

Definition sbind {A B : Type} (m : sim A) (k : A -> sim B) : sim B :=
  fun g =>
    match m g with
    | (Ok a, g') => k a g'
    | (Raise e, g') => (Raise e, g')
    end.

Notation "x <~ m ;; k" := (sbind m (fun x => k))
  (at level 61, m at next level, right associativity).

(** What remains of the generator once [n] variates are taken. *)
Definition advance (n : nat) (g : rng) : rng := fun i => g (n + i)%nat.

(** [np.random.randn(n)]. *)
Definition randn (n : nat) : sim (list R) :=
  fun g => (Ok (map g (seq 0 n)), advance n g).

(** [np.random.randn(n, m)], filled row by row. *)
Definition randn2 (n m : nat) : sim (list (list R)) :=
  fun g =>
    (Ok (map (fun i => map (fun t => g (i * m + t)%nat) (seq 0 m)) (seq 0 n)),
     advance (n * m) g).

(** Two generator states hand out the same next [n] variates. *)
Definition agree (n : nat) (g g' : rng) : Prop :=
  forall i : nat, (i < n)%nat -> g i = g' i.

(** [m] looks at no more than the next [n] variates: from two states that
    agree on the next [n + j] it returns the same result and leaves states
    that agree on the next [j]. *)
Definition reads {A : Type} (n : nat) (m : sim A) : Prop :=
  forall (j : nat) (g g' : rng),
    agree (n + j) g g' ->
    fst (m g) = fst (m g') /\ agree j (snd (m g)) (snd (m g')).

(** A generator that hands out 1, -1, 1, -1, ... *)
Definition alternating : rng := fun i => if Nat.even i then 1 else -1.

Section Engine.

(** [monte_carlo_call] and [monte_carlo_put] differ in the payoff only:
    [x - K] in the first, [K - x] in the second. *)
Variable intrinsic : R -> R.

(** The body of [for t in range(1, steps + 1)]. *)
Definition path_step (drift : R) (diffusion : list (list R))
  (S_paths : list (list R)) (t : nat) : list (list R) :=
  map2 (fun row drow =>
          set_item t (nth (t - 1) row 0 * exp (drift + nth (t - 1) drow 0)) row)
       S_paths diffusion.

(** The price function.  [np.sqrt] is read as the real square root, which
    matches the code for a maturity [T >= 0]; on a negative one numpy returns
    nan, which the reals do not have, so statements about the returned value
    carry [0 <= T]. *)
Definition price (S T r sigma : R) (simulations steps : nat)
  (option_type : string) : sim R :=
  if String.eqb option_type "European" then
    Z <~ randn simulations ;;
    let ST := map (fun z => S * exp ((r - 0.5 * sigma ^ 2) * T
                                     + sigma * sqrt T * z)) Z in
    let payoff := map (fun s => Rmax (intrinsic s) 0) ST in
    ret (exp (- r * T) * np_mean payoff)
  else if String.eqb option_type "Asian" then
    dt <~ lift (truediv T steps) ;;
    Z <~ randn2 simulations steps ;;
    let S_paths := repeat (repeat 0 (steps + 1)) simulations in
    let S_paths := map (set_item 0 S) S_paths in
    let drift := (r - 0.5 * sigma ^ 2) * dt in
    let diffusion := map (map (fun z => sigma * sqrt dt * z)) Z in
    let S_paths := fold_left (path_step drift diffusion) (seq 1 steps) S_paths in
    let S_avg := map np_mean S_paths in
    let payoff := map (fun a => Rmax (intrinsic a) 0) S_avg in
    ret (exp (- r * T) * np_mean payoff)
  else
    raise (ValueError ("Unsupported option_type: " ++ option_type)%string).

(** [monte_carlo_greeks_call] and [monte_carlo_greeks_put]: [price_fn] keeps
    the default [steps=100] and fixes the European style. *)
Definition greeks (S T r sigma : R) (simulations : nat) (epsilon : R)
  : sim dict :=
  let price_fn S_ T_ r_ sigma_ :=
    price S_ T_ r_ sigma_ simulations 100 "European" in
  base_price <~ price_fn S T r sigma ;;
  price_up <~ price_fn (S + epsilon) T r sigma ;;
  price_down <~ price_fn (S - epsilon) T r sigma ;;
  let delta := (price_up - price_down) / (2 * epsilon) in
  let gamma := (price_up - 2 * base_price + price_down) / (epsilon ^ 2) in
  let T_eps := Rmax (T - epsilon) 1e-6 in
  theta_lo <~ price_fn S T_eps r sigma ;;
  theta_hi <~ price_fn S (T + epsilon) r sigma ;;
  let theta := (theta_lo - theta_hi) / (2 * epsilon) in
  vega_hi <~ price_fn S T r (sigma + epsilon) ;;
  vega_lo <~ price_fn S T r (sigma - epsilon) ;;
  let vega := (vega_hi - vega_lo) / (2 * epsilon) in
  rho_hi <~ price_fn S T (r + epsilon) sigma ;;
  rho_lo <~ price_fn S T (r - epsilon) sigma ;;
  let rho := (rho_hi - rho_lo) / (2 * epsilon) in
  ret [("price", base_price); ("delta", delta); ("gamma", gamma);
       ("theta", theta); ("vega", vega); ("rho", rho)].

End Engine.

Definition monte_carlo_call (S K T r sigma : R) (simulations steps : nat)
  (option_type : string) : sim R :=
  price (fun x => x - K) S T r sigma simulations steps option_type.

Definition monte_carlo_greeks_call (S K T r sigma : R) (simulations : nat)
  (epsilon : R) : sim dict :=
  greeks (fun x => x - K) S T r sigma simulations epsilon.

Definition monte_carlo_put (S K T r sigma : R) (simulations steps : nat)
  (option_type : string) : sim R :=
  price (fun x => K - x) S T r sigma simulations steps option_type.

Definition monte_carlo_greeks_put (S K T r sigma : R) (simulations : nat)
  (epsilon : R) : sim dict :=
  greeks (fun x => K - x) S T r sigma simulations epsilon.

End MonteCarlo.

(** ** Reference formulas *)

Module Reference.

(** The binomial weight of [j] up-moves out of [n], for up-probability [p]
    and down-probability [q]. *)
Definition weight (p q : R) (n j : nat) : R := C n j * p ^ j * q ^ (n - j).

(** The one-shot discounted risk-neutral expectation over the terminal
    nodes of the Cox-Ross-Rubinstein tree. *)
Definition crr_expectation (payoff : R -> R) (S T r sigma : R) (steps : nat) : R :=
  let dt := T / INR steps in
  let u := exp (sigma * sqrt dt) in
  let d := 1 / u in
  let p := (exp (r * dt) - d) / (u - d) in
  exp (- r * T) *
  sum_f_R0 (fun j => weight p (1 - p) steps j
                     * payoff (S * u ^ j * d ^ (steps - j))) steps.

(** The two arguments of the Black-Scholes formula. *)
Definition d1 (S K T r sigma : R) : R :=
  (ln (S / K) + (r + sigma ^ 2 / 2) * T) / (sigma * sqrt T).

Definition d2 (S K T r sigma : R) : R :=
  d1 S K T r sigma - sigma * sqrt T.

(** The terminal price of a path driven by the standard-normal draw [z]. *)
Definition terminal_price (S T r sigma z : R) : R :=
  S * exp ((r - sigma ^ 2 / 2) * T + sigma * sqrt T * z).

(** The mean of [f 0], ..., [f (N - 1)], for [N >= 1]. *)
Definition mean_of (N : nat) (f : nat -> R) : R :=
  sum_f_R0 f (N - 1) / INR N.

(** The prices along one simulated path: it starts at [s] and each increment
    [z] multiplies the last price by [exp (drift + z)]. *)
Fixpoint path_prices (drift s : R) (incs : list R) : list R :=
  match incs with
  | [] => [s]
  | z :: rest => s :: path_prices drift (s * exp (drift + z)) rest
  end.

(** The price of the lattice node reached by [k] up-moves in [i] steps. *)
Definition node_price (S u d : R) (i k : nat) : R := S * u ^ k * d ^ (i - k).

End Reference.

(** * Properties *)

(** ** Arrays *)

Section Arrays.

Context {A B C : Type}.

Lemma map2_length (f : A -> B -> C) (l : list A) (l' : list B) :
  List.length (map2 f l l') = Nat.min (List.length l) (List.length l').
Proof.
  revert l'; induction l as [|a l IH]; intros [|b l']; simpl; auto.
Qed.

Lemma nth_map2 (f : A -> B -> C) (l : list A) (l' : list B) (k : nat)
  (da : A) (db : B) (dc : C) :
  (k < List.length l)%nat -> (k < List.length l')%nat ->
  nth k (map2 f l l') dc = f (nth k l da) (nth k l' db).
Proof.
  revert l' k; induction l as [|a l IH]; intros [|b l'] [|k]; simpl;
    intros Hl Hl'; try lia; auto.
  apply IH; lia.
Qed.

Lemma slice_length (lo hi : nat) (l : list A) :
  List.length (slice lo hi l) = Nat.min (hi - lo) (List.length l - lo).
Proof. unfold slice. now rewrite length_firstn, length_skipn. Qed.

Lemma nth_slice (lo hi k : nat) (l : list A) (d : A) :
  (k < hi - lo)%nat -> nth k (slice lo hi l) d = nth (lo + k) l d.
Proof.
  intros Hk. unfold slice. rewrite nth_firstn, nth_skipn.
  destruct (Nat.ltb_spec k (hi - lo)); [reflexivity | lia].
Qed.

Lemma nth_map_in (f : A -> B) (l : list A) (k : nat) (d : A) (d' : B) :
  (k < List.length l)%nat -> nth k (map f l) d' = f (nth k l d).
Proof.
  intros Hk. rewrite (nth_indep _ d' (f d)) by now rewrite length_map.
  apply map_nth.
Qed.

End Arrays.

Example slice_inner : slice 1 3 [10; 20; 30; 40]%nat = [20; 30]%nat.
Proof. reflexivity. Qed.

Example range_downwards : rev (seq 0 3) = [2; 1; 0]%nat.
Proof. reflexivity. Qed.

Example set_item_middle : set_item 1 5 [1; 2; 3] = [1; 5; 3].
Proof. reflexivity. Qed.

Example two_rows_of_draws :
  fst (MonteCarlo.randn2 2 2 INR) = Ok [[INR 0; INR 1]; [INR 2; INR 3]].
Proof. reflexivity. Qed.

Lemma truediv_pos (a : R) (n : nat) :
  (1 <= n)%nat -> truediv a n = Ok (a / INR n).
Proof. destruct n; [lia | reflexivity]. Qed.

Lemma getitem0_single (a : list R) :
  List.length a = 1%nat -> getitem0 a = Ok (nth 0 a 0).
Proof. destruct a as [|v [|w a]]; simpl; intros H; try discriminate; auto. Qed.

(** ** Binomial weights *)

Section Pascal.
Import Reference.

Variables (p q : R) (f : nat -> R).

Lemma C_n_0 (n : nat) : C n 0 = 1.
Proof.
  unfold C. rewrite Nat.sub_0_r. simpl. field. apply INR_fact_neq_0.
Qed.

Lemma C_n_n (n : nat) : C n n = 1.
Proof.
  unfold C. rewrite Nat.sub_diag. simpl. field. apply INR_fact_neq_0.
Qed.

Lemma weight_0 (n : nat) : weight p q n 0 = q ^ n.
Proof. unfold weight. rewrite C_n_0, Nat.sub_0_r. simpl. ring. Qed.

Lemma weight_top (n : nat) : weight p q n n = p ^ n.
Proof. unfold weight. rewrite C_n_n, Nat.sub_diag. simpl. ring. Qed.

Lemma weight_split (m i : nat) :
  (i < m)%nat ->
  weight p q (S m) (S i) = p * weight p q m i + q * weight p q m (S i).
Proof.
  intros Hi. unfold weight. rewrite <- (pascal m i Hi).
  replace (S m - S i)%nat with (S (m - S i)) by lia.
  replace (m - i)%nat with (S (m - S i)) by lia.
  simpl. ring.
Qed.

(** One more step of averaging turns the weights of [m] steps into those of
    [m + 1]. *)
Lemma pascal_sum (m : nat) :
  sum_f_R0 (fun j => weight p q (S m) j * f j) (S m) =
  p * sum_f_R0 (fun j => weight p q m j * f (S j)) m
  + q * sum_f_R0 (fun j => weight p q m j * f j) m.
Proof.
  destruct m as [|m].
  - simpl. rewrite !weight_0, !weight_top. simpl. ring.
  - rewrite tech5, (decomp_sum _ (S m)) by lia.
    rewrite (tech5 (fun j => weight p q (S m) j * f (S j))).
    rewrite (decomp_sum (fun j => weight p q (S m) j * f j) (S m)) by lia.
    simpl pred.
    rewrite (sum_eq (fun i => weight p q (S (S m)) (S i) * f (S i))
               (fun i => weight p q (S m) i * f (S i) * p
                         + weight p q (S m) (S i) * f (S i) * q)).
    + rewrite sum_plus, <- !scal_sum.
      rewrite !weight_0, !weight_top. simpl. ring.
    + intros i Hi. rewrite weight_split by lia. ring.
Qed.

End Pascal.

Lemma exp_pow_nat (x : R) (n : nat) : exp x ^ n = exp (INR n * x).
Proof.
  induction n as [|n IH].
  - simpl. now rewrite Rmult_0_l, exp_0.
  - rewrite S_INR. simpl pow. rewrite IH, <- exp_plus. f_equal. ring.
Qed.

(** ** The backward pass of the lattice *)

Module BinomialFacts.
Import Binomial.

Section Pass.

Variable intrinsic : R -> R.
Variables (steps : nat) (option_type : string).
Variables (S r sigma dt : R).

Abbreviation state_after := (state_after intrinsic steps option_type S r sigma dt).
Abbreviation terminal := (terminal intrinsic steps S sigma dt).
Abbreviation body := (body intrinsic option_type r sigma dt).
Abbreviation backward := (backward intrinsic steps option_type S r sigma dt).
Abbreviation u := (u sigma dt).
Abbreviation d := (d sigma dt).
Abbreviation p := (p r sigma dt).
Abbreviation continuation := (continuation r sigma dt).

Lemma state_after_top : state_after steps = terminal.
Proof. unfold Binomial.state_after. now rewrite Nat.sub_diag. Qed.

Lemma state_after_step (i : nat) :
  (i < steps)%nat -> state_after i = body (state_after (i + 1)) i.
Proof.
  intros Hi. unfold Binomial.state_after.
  replace (steps - i)%nat with (Datatypes.S (steps - (i + 1))) by lia.
  rewrite <- cons_seq. simpl rev. rewrite fold_left_app. simpl.
  now replace (Datatypes.S i) with (i + 1)%nat by lia.
Qed.

Lemma backward_state_after : backward = state_after 0.
Proof. unfold Binomial.backward, Binomial.state_after. now rewrite Nat.sub_0_r. Qed.

Lemma body_lengths (st : lattice) (i : nat) :
  List.length (ST st) = (i + 2)%nat ->
  List.length (option_values st) = (i + 2)%nat ->
  List.length (ST (body st i)) = (i + 1)%nat /\
  List.length (option_values (body st i)) = (i + 1)%nat.
Proof.
  intros HS HV. unfold Binomial.body.
  destruct (String.eqb option_type "American"); simpl;
    repeat rewrite ?map2_length, ?length_map, ?length_firstn, ?slice_length;
    rewrite ?HS, ?HV; lia.
Qed.

Lemma state_after_lengths (i : nat) :
  (i <= steps)%nat ->
  List.length (ST (state_after i)) = (i + 1)%nat /\
  List.length (option_values (state_after i)) = (i + 1)%nat.
Proof.
  intros Hi. remember (steps - i)%nat as m eqn:Hm.
  revert i Hi Hm. induction m as [|m IH]; intros i Hi Hm.
  - replace i with steps by lia. rewrite state_after_top.
    unfold Binomial.terminal. simpl. now rewrite !length_map, length_seq.
  - rewrite state_after_step by lia.
    destruct (IH (i + 1)%nat) as [HS HV]; try lia.
    apply body_lengths; rewrite ?HS, ?HV; lia.
Qed.

(** What one pass does to entry [k] of each array. *)
Lemma body_ST_nth (st : lattice) (i k : nat) :
  List.length (ST st) = (i + 2)%nat -> (k <= i)%nat ->
  nth k (ST (body st i)) 0 = nth k (ST st) 0 / u.
Proof.
  intros HS Hk.
  assert (E : ST (body st i) = map (fun s => s / u) (firstn (i + 1) (ST st))).
  { unfold Binomial.body. now destruct (String.eqb option_type "American"). }
  rewrite E, (nth_map_in _ _ _ 0) by (rewrite length_firstn, HS; lia).
  rewrite nth_firstn. destruct (Nat.ltb_spec k (i + 1)); [reflexivity | lia].
Qed.

Lemma body_value_nth (st : lattice) (i k : nat) :
  List.length (ST st) = (i + 2)%nat ->
  List.length (option_values st) = (i + 2)%nat -> (k <= i)%nat ->
  nth k (option_values (body st i)) 0 =
  if String.eqb option_type "American"
  then Rmax (continuation st k) (intrinsic (nth k (ST st) 0 / u))
  else continuation st k.
Proof.
  intros HS HV Hk.
  assert (Hc : nth k (map2 (fun hi lo => exp (- r * dt) * (p * hi + (1 - p) * lo))
                        (slice 1 (i + 2) (option_values st))
                        (slice 0 (i + 1) (option_values st))) 0
               = continuation st k).
  { rewrite (nth_map2 _ _ _ _ 0 0) by (rewrite slice_length, HV; lia).
    rewrite !nth_slice by lia. unfold continuation.
    now replace (1 + k)%nat with (k + 1)%nat by lia. }
  pose proof (body_ST_nth st i k HS Hk) as HST.
  unfold Binomial.body in *.
  destruct (String.eqb option_type "American"); simpl in *; auto.
  rewrite (nth_map2 _ _ _ _ 0 0).
  - rewrite Hc. f_equal.
    rewrite (nth_map_in _ _ _ 0), HST; auto.
    rewrite length_map, length_firstn, HS; lia.
  - rewrite map2_length, !slice_length, HV; lia.
  - rewrite !length_map, length_firstn, HS; lia.
Qed.

Lemma terminal_ST_nth (j : nat) :
  (j <= steps)%nat ->
  nth j (ST terminal) 0 = S * u ^ j * d ^ (steps - j).
Proof.
  intros Hj. unfold Binomial.terminal. simpl.
  rewrite (nth_map_in _ _ _ 0%nat) by (rewrite length_seq; lia).
  rewrite seq_nth by lia. reflexivity.
Qed.

Lemma terminal_value_nth (j : nat) :
  (j <= steps)%nat ->
  nth j (option_values terminal) 0 =
  Rmax (intrinsic (S * u ^ j * d ^ (steps - j))) 0.
Proof.
  intros Hj. rewrite <- terminal_ST_nth by assumption.
  unfold Binomial.terminal. simpl.
  apply (nth_map_in (fun s => Rmax (intrinsic s) 0)).
  rewrite length_map, length_seq; lia.
Qed.

(** The asset-price array as the loop leaves it: each of the [steps - i]
    passes made so far has divided the surviving terminal prices by [u]. *)
Lemma state_after_ST_nth (i k : nat) :
  (i <= steps)%nat -> (k <= i)%nat ->
  nth k (ST (state_after i)) 0 =
  S * u ^ k * d ^ (steps - k) / u ^ (steps - i).
Proof.
  intros Hi. remember (steps - i)%nat as m eqn:Hm.
  revert i k Hi Hm. induction m as [|m IH]; intros i k Hi Hm Hk.
  - replace i with steps in * by lia. rewrite state_after_top, terminal_ST_nth by lia.
    simpl. field.
  - rewrite state_after_step by lia.
    destruct (state_after_lengths (i + 1)) as [HS HV]; try lia.
    rewrite body_ST_nth by (rewrite ?HS; lia).
    rewrite (IH (i + 1)%nat) by lia.
    simpl. field. split; [apply pow_nonzero|]; unfold Binomial.u;
      apply Rgt_not_eq, exp_pos.
Qed.

(** Without the American branch, [m] passes leave at entry [k] the
    [m]-step binomial average of the terminal values [k], ..., [k + m]. *)
Lemma state_after_value_closed (m i k : nat) :
  String.eqb option_type "American" = false ->
  (i + m = steps)%nat -> (k <= i)%nat ->
  nth k (option_values (state_after i)) 0 =
  exp (- r * dt) ^ m *
  sum_f_R0 (fun j => Reference.weight p (1 - p) m j
                     * nth (k + j) (option_values terminal) 0) m.
Proof.
  intros HA. revert i k. induction m as [|m IH]; intros i k Hm Hk.
  - replace i with steps by lia. rewrite state_after_top. simpl.
    rewrite weight_0, Nat.add_0_r. simpl. ring.
  - rewrite state_after_step by lia.
    destruct (state_after_lengths (i + 1)) as [HS HV]; try lia.
    rewrite body_value_nth by (rewrite ?HS, ?HV; lia).
    rewrite HA. unfold Binomial.continuation.
    rewrite (IH (i + 1)%nat (k + 1)%nat), (IH (i + 1)%nat k) by lia.
    rewrite (pascal_sum p (1 - p)
               (fun j => nth (k + j) (option_values terminal) 0)).
    rewrite (sum_eq
               (fun j => Reference.weight p (1 - p) m j
                         * nth (k + 1 + j) (option_values terminal) 0)
               (fun j => Reference.weight p (1 - p) m j
                         * nth (k + Datatypes.S j) (option_values terminal) 0)).
    + simpl pow. ring.
    + intros j _. do 2 f_equal. lia.
Qed.

End Pass.

(** The value [price] returns when the style is not American. *)
Lemma price_closed_form (intrinsic : R -> R) (steps : nat) (option_type : string)
  (S T r sigma : R) :
  option_type <> "American" -> (1 <= steps)%nat ->
  price intrinsic steps option_type S T r sigma =
  Ok (Reference.crr_expectation (fun x => Rmax (intrinsic x) 0) S T r sigma steps).
Proof.
  intros HA Hsteps. apply String.eqb_neq in HA.
  unfold price. rewrite truediv_pos by assumption. unfold bind.
  set (dt := T / INR steps).
  destruct (state_after_lengths intrinsic steps option_type S r sigma dt 0)
    as [_ HV]; [lia|].
  rewrite backward_state_after, getitem0_single by exact HV.
  rewrite (state_after_value_closed _ _ _ _ _ _ _ steps 0 0 HA) by lia.
  unfold Reference.crr_expectation. fold dt. f_equal.
  rewrite exp_pow_nat.
  replace (INR steps * (- r * dt)) with (- r * T).
  - f_equal. apply sum_eq. intros j Hj. simpl Nat.add.
    rewrite terminal_value_nth by lia. reflexivity.
  - unfold dt. field. apply not_0_INR. lia.
Qed.

(** ** Early exercise against the European value *)

Lemma exp_upper (x : R) : x < 1 -> exp x <= 1 / (1 - x).
Proof.
  intros Hx. pose proof (exp_ineq1_le (- x)) as H. rewrite exp_Ropp in H.
  pose proof (exp_pos x) as Hpos.
  apply Rmult_le_reg_r with (1 - x); [lra|].
  replace (1 / (1 - x) * (1 - x)) with 1 by (field; lra).
  apply Rmult_le_compat_l with (r := exp x) in H; [|lra].
  rewrite Rinv_r in H; lra.
Qed.

Lemma u_d_inverse (sigma dt : R) : u sigma dt * d sigma dt = 1.
Proof. unfold d. field. apply Rgt_not_eq, exp_pos. Qed.

Lemma u_above_d (sigma dt : R) :
  0 < sigma -> 0 < dt -> d sigma dt < 1 < u sigma dt.
Proof.
  intros Hs Ht.
  assert (Hx : 0 < sigma * sqrt dt)
    by (apply Rmult_lt_0_compat; [|apply sqrt_lt_R0]; assumption).
  assert (Hu : 1 < u sigma dt).
  { unfold u. rewrite <- exp_0. now apply exp_increasing. }
  split; [|exact Hu].
  pose proof (u_d_inverse sigma dt). nra.
Qed.

(** The up-probability is a probability exactly when growth at the rate [r]
    over one step stays between the down and the up factor. *)
Lemma p_range (r sigma dt : R) :
  0 < sigma -> 0 < dt ->
  - (sigma * sqrt dt) <= r * dt <= sigma * sqrt dt ->
  0 <= p r sigma dt <= 1.
Proof.
  intros Hs Ht [Hlo Hhi].
  destruct (u_above_d sigma dt Hs Ht) as [Hd Hu].
  assert (Ha : d sigma dt <= exp (r * dt) <= u sigma dt).
  { split.
    - unfold d, u. replace (1 / exp (sigma * sqrt dt))
        with (exp (- (sigma * sqrt dt))) by (rewrite exp_Ropp; field;
                                             apply Rgt_not_eq, exp_pos).
      destruct Hlo as [Hlo|Hlo]; [left; now apply exp_increasing|right; now f_equal].
    - unfold u.
      destruct Hhi as [Hhi|Hhi]; [left; now apply exp_increasing|right; now f_equal]. }
  unfold p. split.
  - apply Rmult_le_pos; [lra|]. left. apply Rinv_0_lt_compat. lra.
  - apply Rmult_le_reg_r with (u sigma dt - d sigma dt); [lra|].
    unfold Rdiv. rewrite Rmult_assoc, Rinv_l by lra. lra.
Qed.

Section Dominance.

Variable intrinsic : R -> R.
Variables (steps : nat) (S r sigma dt : R).
Hypothesis p_prob : 0 <= p r sigma dt <= 1.

(** Node by node the American array stays above the European one. *)
Lemma american_dominates (m i k : nat) :
  (i + m = steps)%nat -> (k <= i)%nat ->
  nth k (option_values (state_after intrinsic steps "European" S r sigma dt i)) 0
  <= nth k (option_values (state_after intrinsic steps "American" S r sigma dt i)) 0.
Proof.
  revert i k. induction m as [|m IH]; intros i k Hm Hk.
  - replace i with steps by lia. rewrite !state_after_top. apply Rle_refl.
  - rewrite (state_after_step intrinsic steps "European") by lia.
    rewrite (state_after_step intrinsic steps "American") by lia.
    destruct (state_after_lengths intrinsic steps "European" S r sigma dt (i + 1))
      as [HS HV]; try lia.
    destruct (state_after_lengths intrinsic steps "American" S r sigma dt (i + 1))
      as [HS' HV']; try lia.
    rewrite (body_value_nth intrinsic "European") by (rewrite ?HS, ?HV; lia).
    rewrite (body_value_nth intrinsic "American") by (rewrite ?HS', ?HV'; lia).
    cbn [String.eqb Ascii.eqb Bool.eqb].
    eapply Rle_trans; [|apply Rmax_l].
    unfold continuation.
    pose proof (IH (i + 1)%nat (k + 1)%nat ltac:(lia) ltac:(lia)) as Hup.
    pose proof (IH (i + 1)%nat k ltac:(lia) ltac:(lia)) as Hlo.
    apply Rmult_le_compat_l; [left; apply exp_pos|].
    apply Rplus_le_compat; apply Rmult_le_compat_l; lra.
Qed.

End Dominance.

Lemma price_american_dominates (intrinsic : R -> R) (steps : nat)
  (S T r sigma : R) :
  (1 <= steps)%nat -> 0 <= p r sigma (T / INR steps) <= 1 ->
  exists a e : R,
    price intrinsic steps "American" S T r sigma = Ok a /\
    price intrinsic steps "European" S T r sigma = Ok e /\ e <= a.
Proof.
  intros Hsteps Hp. unfold price. rewrite truediv_pos by assumption.
  unfold bind. set (dt := T / INR steps) in *.
  destruct (state_after_lengths intrinsic steps "American" S r sigma dt 0)
    as [_ HA]; [lia|].
  destruct (state_after_lengths intrinsic steps "European" S r sigma dt 0)
    as [_ HE]; [lia|].
  rewrite !backward_state_after, !getitem0_single by assumption.
  do 2 eexists. repeat split.
  apply (american_dominates intrinsic steps S r sigma dt Hp steps 0 0); lia.
Qed.

(** Unfolds a lattice price on a literal step count down to its arithmetic. *)
Ltac run_lattice :=
  unfold binomial_put, binomial_call, price; rewrite truediv_pos by lia;
  unfold bind, backward, terminal;
  cbn [seq rev app fold_left map Nat.add Nat.sub];
  unfold body;
  cbn [String.eqb Ascii.eqb Bool.eqb ST option_values slice firstn skipn map2 map
       Nat.add Nat.sub getitem0].

(** The arithmetic of the two-step put struck at the money, for an up factor
    near 1.01 and a growth factor near 1.1: the up-probability is above 5. *)
Lemma two_step_put_gap (u d a c p : R) :
  u * d = 1 -> a * c = 1 -> 1.01 <= u <= 1 / 0.99 -> 1.1 <= a <= 1 / 0.9 ->
  p * (u - d) = a - d ->
  Rmax
       (c *
        (p *
         Rmax
           (c *
            (p * Rmax (100 - 100 * u ^ 2 * d ^ 0) 0 +
             (1 - p) *
             Rmax (100 - 100 * u ^ 1 * d ^ 1) 0))
           (100 - 100 * u ^ 1 * d ^ 1 / u) +
         (1 - p) *
         Rmax
           (c *
            (p * Rmax (100 - 100 * u ^ 1 * d ^ 1) 0 +
             (1 - p) *
             Rmax (100 - 100 * u ^ 0 * d ^ 2) 0))
           (100 - 100 * u ^ 0 * d ^ 2 / u)))
       (100 - 100 * u ^ 0 * d ^ 2 / u / u)
  < c * (p * (c * (p * Rmax (100 - 100 * u ^ 2 * d ^ 0) 0 +
             (1 - p) * Rmax (100 - 100 * u ^ 1 * d ^ 1) 0)) +
         (1 - p) * (c * (p * Rmax (100 - 100 * u ^ 1 * d ^ 1) 0 +
             (1 - p) * Rmax (100 - 100 * u ^ 0 * d ^ 2) 0))).
Proof.
  intros Hud Hac [Hu1 Hu2] [Ha1 Ha2] Hp.
  assert (Hd : 0.99 <= d <= 1 / 1.01) by (split; nra).
  assert (Hc : 0.9 <= c <= 1 / 1.1) by (split; nra).
  assert (Hinv : / u = d).
  { apply Rmult_eq_reg_l with u; [|lra]. rewrite Rinv_r; lra. }
  replace (100 - 100 * u ^ 1 * d ^ 1) with 0 by nra.
  replace (Rmax (100 - 100 * u ^ 2 * d ^ 0) 0) with 0
    by (rewrite Rmax_right; nra).
  replace (Rmax 0 0) with 0 by (rewrite Rmax_right; lra).
  replace (Rmax (100 - 100 * u ^ 0 * d ^ 2) 0) with (100 * (1 - d * d))
    by (rewrite Rmax_left; nra).
  replace (c * (p * 0 + (1 - p) * 0)) with 0 by ring.
  replace (100 * u ^ 1 * d ^ 1 / u) with (100 * d)
    by (unfold Rdiv; rewrite Hinv; nra).
  replace (100 * u ^ 0 * d ^ 2 / u / u) with (100 * (d * d * d * d))
    by (unfold Rdiv; rewrite Hinv; ring).
  replace (100 * u ^ 0 * d ^ 2 / u) with (100 * (d * d * d))
    by (unfold Rdiv; rewrite Hinv; ring).
  rewrite (Rmax_right 0 (100 - 100 * d)) by lra.
  assert (Hp' : 5.4 <= p <= 6.1) by (split; nra).
  assert (Hdd : 0.98 <= d * d <= 0.9804) by (split; nra).
  assert (Hd3 : d * d * d <= 0.971) by nra.
  assert (Hd4 : 0.96 <= d * d * d * d) by nra.
  set (A0 := Rmax _ (100 - 100 * (d * d * d))).
  assert (HA0 : 2.9 <= A0) by (eapply Rle_trans; [|apply Rmax_r]; lra).
  assert (Hq2 : 19.36 <= (1 - p) * (1 - p)) by nra.
  assert (Hcc : 0.81 <= c * c) by nra.
  assert (HE : 30 <= c * (p * 0 + (1 - p) * (c * (p * 0 + (1 - p) * (100 * (1 - d * d)))))).
  { replace (c * (p * 0 + (1 - p) * (c * (p * 0 + (1 - p) * (100 * (1 - d * d))))))
      with ((c * c) * ((1 - p) * (1 - p)) * (100 * (1 - d * d))) by ring.
    assert (15.6 <= (c * c) * ((1 - p) * (1 - p))) by nra.
    nra. }
  apply Rmax_lub_lt.
  - assert (p * (100 - 100 * d) + (1 - p) * A0 <= 0) by nra.
    nra.
  - lra.
Qed.

(** *** The asset-price array *)

(** Below the terminal level every entry of the array is strictly under the
    price of the node it is paired with: after [steps - i] divisions by [u]
    entry [k] is [S u^k d^(2 steps - i - k)], not [S u^k d^(i - k)]. *)
Lemma ST_below_node_price (intrinsic : R -> R) (steps : nat)
  (option_type : string) (S r sigma dt : R) (i k : nat) :
  0 < S -> 0 < sigma -> 0 < dt -> (i < steps)%nat -> (k <= i)%nat ->
  nth k (ST (state_after intrinsic steps option_type S r sigma dt i)) 0
  < Reference.node_price S (u sigma dt) (d sigma dt) i k.
Proof.
  intros HS Hs Ht Hi Hk. rewrite state_after_ST_nth by lia.
  destruct (u_above_d sigma dt Hs Ht) as [Hd Hu].
  pose proof (u_d_inverse sigma dt) as Hud.
  set (u := u sigma dt) in *. set (d := d sigma dt) in *.
  assert (Hd0 : 0 < d) by nra.
  unfold Reference.node_price.
  replace (steps - k)%nat with ((i - k) + (steps - i))%nat by lia.
  rewrite pow_add.
  assert (Hinv : / u ^ (steps - i) = d ^ (steps - i)).
  { rewrite <- pow_inv. f_equal.
    apply Rmult_eq_reg_l with u; [|lra]. rewrite Rinv_r; lra. }
  unfold Rdiv. rewrite Hinv.
  assert (Hm : d ^ (steps - i) * d ^ (steps - i) < 1).
  { assert (Hlt : d ^ (steps - i) < 1).
    { replace (steps - i)%nat with (Datatypes.S (steps - i - 1)) by lia.
      simpl. pose proof (pow_incr 0 d (steps - i - 1)) as H0.
      pose proof (pow_incr d 1 (steps - i - 1)) as H1.
      rewrite pow1 in H1. pose proof (pow_lt d (steps - i - 1) Hd0). nra. }
    pose proof (pow_lt d (steps - i) Hd0). nra. }
  assert (Hpos : 0 < S * u ^ k * d ^ (i - k)).
  { repeat apply Rmult_lt_0_compat; auto; apply pow_lt; lra. }
  nra.
Qed.

(** C1. In [binomial_put(100, 100, 1, 0.02, 0.2, steps=1, "American")] the
    array entry paired with the root node is [100 d^2], below the root price
    [S u^0 d^0 = 100]; the intrinsic value taken from it, [100 - 100 d^2],
    exceeds the continuation value and is what the call returns. *)
Theorem american_put_root_uses_shifted_price :
  let dt := 1 / INR 1 in
  let u := u 0.2 dt in
  let d := d 0.2 dt in
  nth 0 (ST (state_after (fun s => 100 - s) 1 "American" 100 0.02 0.2 dt 0)) 0
    = 100 * d ^ 2 /\
  100 * d ^ 2 < Reference.node_price 100 u d 0 0 /\
  binomial_put 100 100 1 0.02 0.2 1 "American" = Ok (100 - 100 * d ^ 2).
Proof.
  intros dt u d.
  assert (Hdt : dt = 1) by (unfold dt; simpl; lra).
  assert (Hud : u * d = 1) by apply u_d_inverse.
  destruct (u_above_d 0.2 dt) as [Hd1 Hu1]; try lra.
  fold u d in Hd1, Hu1.
  assert (Hinv : / u = d).
  { apply Rmult_eq_reg_l with u; [|lra]. rewrite Rinv_r; lra. }
  assert (Hd0 : 0 < d) by nra.
  split; [|split].
  - rewrite state_after_ST_nth by lia. fold u d. simpl.
    replace (u * 1) with u by ring. unfold Rdiv. rewrite Hinv. ring.
  - unfold Reference.node_price. simpl. nra.
  - run_lattice. fold dt u d. f_equal.
    destruct (p_range 0.02 0.2 dt) as [Hp0 Hp1]; try lra.
    { rewrite Hdt, sqrt_1. lra. }
    set (p := p 0.02 0.2 dt) in *.
    assert (Hc : 0 < exp (- (0.02) * dt) < 1).
    { split; [apply exp_pos|]. rewrite <- exp_0. apply exp_increasing. lra. }
    set (c := exp (- (0.02) * dt)) in *.
    replace (100 * u ^ 0 * d ^ 1 / u) with (100 * d ^ 2)
      by (unfold Rdiv; rewrite Hinv; ring).
    rewrite (Rmax_right (100 - 100 * u ^ 1 * d ^ 0) 0) by (simpl; nra).
    rewrite (Rmax_left (100 - 100 * u ^ 0 * d ^ 1) 0) by (simpl; nra).
    apply Rmax_right. simpl.
    assert (c * (1 - p) <= 1) by nra.
    nra.
Qed.

(** *** Exercise styles the engine does not know *)

Lemma price_ignores_style (intrinsic : R -> R) (steps : nat)
  (option_type : string) (S T r sigma : R) :
  option_type <> "American" ->
  price intrinsic steps option_type S T r sigma =
  price intrinsic steps "European" S T r sigma.
Proof.
  intros HA. destruct steps as [|n]; [reflexivity|].
  rewrite !price_closed_form; auto; try lia. discriminate.
Qed.

(** C7, as the code has it. A style other than ["American"] is not
    rejected: [binomial_call] and [binomial_put] return what they return for
    ["European"], which for [steps >= 1] is a price and no exception. *)
Theorem binomial_unknown_style_priced_as_european
  (S K T r sigma : R) (steps : nat) (option_type : string) :
  option_type <> "American" ->
  (binomial_call S K T r sigma steps option_type
   = binomial_call S K T r sigma steps "European" /\
   binomial_put S K T r sigma steps option_type
   = binomial_put S K T r sigma steps "European") /\
  ((1 <= steps)%nat ->
   exists c q : R,
     binomial_call S K T r sigma steps option_type = Ok c /\
     binomial_put S K T r sigma steps option_type = Ok q).
Proof.
  intros HA. unfold binomial_call, binomial_put. split.
  - split; now apply price_ignores_style.
  - intros Hsteps. rewrite !price_closed_form by assumption.
    do 2 eexists; split; reflexivity.
Qed.

Lemma binomial_unknown_style_priced_as_european_witness :
  (binomial_call 100 100 1 0.02 0.2 3 "Bermudan"
   = binomial_call 100 100 1 0.02 0.2 3 "European" /\
   binomial_put 100 100 1 0.02 0.2 3 "Bermudan"
   = binomial_put 100 100 1 0.02 0.2 3 "European") /\
  ((1 <= 3)%nat ->
   exists c q : R,
     binomial_call 100 100 1 0.02 0.2 3 "Bermudan" = Ok c /\
     binomial_put 100 100 1 0.02 0.2 3 "Bermudan" = Ok q).
Proof.
  apply (binomial_unknown_style_priced_as_european 100 100 1 0.02 0.2 3 "Bermudan").
  discriminate.
Defined.

(** C7, as stated, fails: ["Bermudan"] handed to [binomial_call] raises
    nothing, so no error names it. *)
Lemma binomial_call_bermudan_not_rejected :
  ~ fails_naming (binomial_call 100 100 1 0.02 0.2 1 "Bermudan") "Bermudan".
Proof.
  intros [e [He _]]. unfold binomial_call in He.
  rewrite price_closed_form in He by (try lia; discriminate).
  discriminate.
Qed.

(** *** American against European *)

(** C8, as the code has it. With valid parameters and a growth over one step
    that stays between the down and the up move, [|r| dt <= sigma sqrt(dt)]
    (so that the up-probability lies in [0, 1]), the American price is at
    least the European one, for calls and for puts. *)
Theorem american_at_least_european (S K T r sigma : R) (steps : nat) :
  0 < S -> 0 < K -> 0 < T -> 0 < sigma -> (1 <= steps)%nat ->
  - (sigma * sqrt (T / INR steps)) <= r * (T / INR steps)
    <= sigma * sqrt (T / INR steps) ->
  (exists a e : R,
     binomial_call S K T r sigma steps "American" = Ok a /\
     binomial_call S K T r sigma steps "European" = Ok e /\ e <= a) /\
  (exists a e : R,
     binomial_put S K T r sigma steps "American" = Ok a /\
     binomial_put S K T r sigma steps "European" = Ok e /\ e <= a).
Proof.
  intros HS HK HT Hs Hsteps Hr.
  assert (Hdt : 0 < T / INR steps).
  { apply Rdiv_lt_0_compat; [assumption|]. apply lt_0_INR. lia. }
  pose proof (p_range r sigma (T / INR steps) Hs Hdt Hr) as Hp.
  split; apply price_american_dominates; assumption.
Qed.

Lemma american_at_least_european_witness :
  (exists a e : R,
     binomial_call 100 100 1 0.02 0.2 1 "American" = Ok a /\
     binomial_call 100 100 1 0.02 0.2 1 "European" = Ok e /\ e <= a) /\
  (exists a e : R,
     binomial_put 100 100 1 0.02 0.2 1 "American" = Ok a /\
     binomial_put 100 100 1 0.02 0.2 1 "European" = Ok e /\ e <= a).
Proof.
  apply (american_at_least_european 100 100 1 0.02 0.2 1); try lra; try lia.
  replace (1 / INR 1) with 1 by (simpl; lra). rewrite sqrt_1. lra.
Defined.

(** C8, as stated, fails once the rate pushes the up-probability out of
    [0, 1]: for [binomial_put(100, 100, 2, 0.1, 0.01, steps=2)] the American
    price is below the European one. *)
Lemma american_put_below_european :
  exists a e : R,
    binomial_put 100 100 2 0.1 0.01 2 "American" = Ok a /\
    binomial_put 100 100 2 0.1 0.01 2 "European" = Ok e /\ a < e.
Proof.
  do 2 eexists. split; [|split].
  - run_lattice. reflexivity.
  - run_lattice. reflexivity.
  - replace (2 / INR 2) with 1 by (simpl; lra).
    pose proof (u_d_inverse 0.01 1) as Hud.
    assert (Hu : u 0.01 1 = exp 0.01).
    { unfold u. rewrite sqrt_1. f_equal. lra. }
    assert (Hub : 1.01 <= u 0.01 1 <= 1 / 0.99).
    { rewrite Hu. split.
      - pose proof (exp_ineq1_le 0.01). lra.
      - pose proof (exp_upper 0.01). lra. }
    assert (Hab : 1.1 <= exp (0.1 * 1) <= 1 / 0.9).
    { replace (0.1 * 1) with 0.1 by lra. split.
      - pose proof (exp_ineq1_le 0.1). lra.
      - pose proof (exp_upper 0.1). lra. }
    apply (two_step_put_gap (u 0.01 1) (d 0.01 1) (exp (0.1 * 1))
             (exp (- (0.1) * 1)) (p 0.1 0.01 1)); auto.
    + rewrite <- exp_plus, <- exp_0. f_equal. lra.
    + unfold p. field. destruct (u_above_d 0.01 1); lra.
Qed.

(** *** The closed binomial sum *)

(** C10. For a style other than ["American"], valid parameters and
    [steps >= 1], [binomial_call] and [binomial_put] return the discounted
    binomial expectation of the terminal payoff: the backward induction
    computes the closed sum and the asset-price array plays no part. *)
Theorem binomial_is_closed_sum
  (S K T r sigma : R) (steps : nat) (option_type : string) :
  0 < S -> 0 < K -> 0 < T -> 0 < sigma -> (1 <= steps)%nat ->
  option_type <> "American" ->
  binomial_call S K T r sigma steps option_type
  = Ok (Reference.crr_expectation (fun x => Rmax (x - K) 0) S T r sigma steps) /\
  binomial_put S K T r sigma steps option_type
  = Ok (Reference.crr_expectation (fun x => Rmax (K - x) 0) S T r sigma steps).
Proof.
  intros _ _ _ _ Hsteps HA. unfold binomial_call, binomial_put.
  split; now apply price_closed_form.
Qed.

Lemma binomial_is_closed_sum_witness :
  binomial_call 100 100 1 0.02 0.2 3 "Bermudan"
  = Ok (Reference.crr_expectation (fun x => Rmax (x - 100) 0) 100 1 0.02 0.2 3) /\
  binomial_put 100 100 1 0.02 0.2 3 "Bermudan"
  = Ok (Reference.crr_expectation (fun x => Rmax (100 - x) 0) 100 1 0.02 0.2 3).
Proof.
  apply (binomial_is_closed_sum 100 100 1 0.02 0.2 3 "Bermudan");
    try lra; try lia; discriminate.
Defined.

End BinomialFacts.

(** ** The analytic engine *)

(** The integral from 0 of an even continuous function is odd. *)
Section EvenIntegral.

Variable f : R -> R.
Hypothesis f_cont : continuity f.
Hypothesis f_even : forall x, f (- x) = f x.

Lemma primitive_integral (a b : R) (h : a <= b)
  (pr : forall x : R, a <= x -> x <= b -> Riemann_integrable f a x)
  (t : R) (pt : Riemann_integrable f a t) :
  a <= t <= b -> primitive h pr t = RiemannInt pt.
Proof.
  intros [H1 H2]. unfold primitive.
  destruct (Rle_dec a t) as [r1|]; [|contradiction].
  destruct (Rle_dec t b) as [r2|]; [|contradiction].
  apply RiemannInt_P5.
Qed.

Lemma even_integral_nonneg (x : R)
  (pm : Riemann_integrable f 0 (- x)) (pp : Riemann_integrable f 0 x) :
  0 <= x -> RiemannInt pm = - RiemannInt pp.
Proof.
  intros Hx.
  assert (h : - x <= x) by lra.
  pose (C0 := fun (t : R) (_ : - x <= t <= x) => f_cont t).
  pose (P := primitive h (FTC_P1 h C0)).
  assert (HP : antiderivative f P (- x) x) by apply RiemannInt_P29.
  assert (HG : antiderivative f (fun t => - P (- t)) (- x) x).
  { split; [|exact h]. intros t Ht.
    assert (Hlim : derivable_pt_lim (fun t => - P (- t)) t (f t)).
    { assert (Hm : - x <= - t <= x) by lra.
      pose proof (RiemannInt_P28 h C0 Hm) as H1. fold P in H1.
      pose proof (derivable_pt_lim_opp _ _ _ (derivable_pt_lim_id t)) as H2.
      pose proof (derivable_pt_lim_comp (- id)%F P t (- 1) (f (- t)) H2 H1) as H3.
      apply derivable_pt_lim_opp in H3.
      rewrite f_even in H3.
      replace (f t) with (- (f t * - 1)) by ring. exact H3. }
    exists (exist _ (f t) Hlim). reflexivity. }
  destruct (antiderivative_Ucte f P _ (- x) x HP HG) as [c Hc].
  pose proof (Hc 0 ltac:(lra)) as E0.
  pose proof (Hc x ltac:(lra)) as Ex.
  rewrite Ropp_0 in E0.
  assert (Ea : P (- x) = 0).
  { unfold P.
    rewrite (primitive_integral _ _ h _ (- x) (RiemannInt_P7 f (- x)))
      by lra.
    apply RiemannInt_P9. }
  assert (I0 : Riemann_integrable f (- x) 0)
    by (apply RiemannInt_P1; exact pm).
  assert (Ix : Riemann_integrable f (- x) x)
    by (apply (RiemannInt_P24 I0 pp)).
  assert (EP0 : P 0 = RiemannInt I0)
    by (apply primitive_integral; lra).
  assert (EPx : P x = RiemannInt Ix)
    by (apply primitive_integral; lra).
  pose proof (RiemannInt_P26 I0 pp Ix) as Hch.
  pose proof (RiemannInt_P8 pm I0) as Hsw.
  lra.
Qed.

Lemma even_integral (x : R)
  (pm : Riemann_integrable f 0 (- x)) (pp : Riemann_integrable f 0 x) :
  RiemannInt pm = - RiemannInt pp.
Proof.
  destruct (Rle_dec 0 x) as [Hx|Hx].
  - now apply even_integral_nonneg.
  - assert (Hy : 0 <= - x) by lra.
    assert (pp' : Riemann_integrable f 0 (- - x))
      by (rewrite Ropp_involutive; exact pp).
    pose proof (even_integral_nonneg (- x) pp' pm Hy) as H.
    assert (E : RiemannInt pp' = RiemannInt pp).
    { clear. revert pp'. rewrite Ropp_involutive. intros. apply RiemannInt_P5. }
    lra.
Qed.

End EvenIntegral.

Module BlackScholesFacts.
Import BlackScholes.

Lemma norm_pdf_even (x : R) : norm_pdf (- x) = norm_pdf x.
Proof. unfold norm_pdf. do 3 f_equal. ring. Qed.

Lemma norm_cdf_symmetry (x : R) : norm_cdf (- x) = 1 - norm_cdf x.
Proof.
  unfold norm_cdf.
  rewrite (even_integral norm_pdf norm_pdf_continuity norm_pdf_even x
             (norm_pdf_integrable 0 (- x)) (norm_pdf_integrable 0 x)).
  lra.
Qed.

Lemma norm_cdf_0 : norm_cdf 0 = 1 / 2.
Proof. unfold norm_cdf. rewrite RiemannInt_P9. lra. Qed.

(** The density is the derivative of the distribution function. *)
Lemma norm_cdf_derivative (x : R) : derivable_pt_lim norm_cdf x (norm_pdf x).
Proof.
  set (a := - Rabs x - 1). set (b := Rabs x + 1).
  pose proof (Rabs_pos x) as Hx0.
  pose proof (Rle_abs x) as Hx1.
  pose proof (Rle_abs (- x)) as Hx2. rewrite Rabs_Ropp in Hx2.
  assert (h : a <= b) by (unfold a, b; lra).
  pose (C0 := fun (t : R) (_ : a <= t <= b) => norm_pdf_continuity t).
  pose (P := primitive h (FTC_P1 h C0)).
  assert (HP : derivable_pt_lim P x (norm_pdf x)).
  { apply RiemannInt_P28. unfold a, b. lra. }
  assert (E : forall t, a <= t <= b -> norm_cdf t = 1 / 2 + (P t - P 0)).
  { intros t Ht. unfold norm_cdf, P.
    assert (I0 : Riemann_integrable norm_pdf a 0)
      by apply norm_pdf_integrable.
    assert (It : Riemann_integrable norm_pdf a t)
      by apply norm_pdf_integrable.
    rewrite (primitive_integral norm_pdf a b h _ t It) by lra.
    rewrite (primitive_integral norm_pdf a b h _ 0 I0) by (unfold a, b; lra).
    rewrite <- (RiemannInt_P26 I0 (norm_pdf_integrable 0 t) It). lra. }
  intros eps Heps. destruct (HP eps Heps) as [delta Hdelta].
  assert (Hm : 0 < Rmin delta 1) by (apply Rmin_pos; [apply cond_pos | lra]).
  exists (mkposreal _ Hm). intros k Hk0 Hk. cbn [pos] in Hk.
  assert (Hk1 : Rabs k < 1) by (eapply Rlt_le_trans; [exact Hk | apply Rmin_r]).
  assert (Hkd : Rabs k < delta) by (eapply Rlt_le_trans; [exact Hk | apply Rmin_l]).
  apply Rabs_def2 in Hk1.
  rewrite !E by (unfold a, b; lra).
  replace (1 / 2 + (P (x + k) - P 0) - (1 / 2 + (P x - P 0)))
    with (P (x + k) - P x) by ring.
  now apply Hdelta.
Qed.

Lemma float_le_true (x y : R) : x <= y -> float_le x y = true.
Proof. intros H. unfold float_le. now destruct (Rle_dec x y). Qed.

Lemma float_le_false (x y : R) : y < x -> float_le x y = false.
Proof. intros H. unfold float_le. destruct (Rle_dec x y); [lra | reflexivity]. Qed.

Lemma degenerate_true (S K T sigma : R) :
  T <= 0 \/ sigma <= 0 \/ S <= 0 \/ K <= 0 -> degenerate S K T sigma = true.
Proof.
  unfold degenerate. intros [H|[H|[H|H]]]; rewrite (float_le_true _ _ H);
    destruct (float_le T 0), (float_le sigma 0), (float_le S 0); reflexivity.
Qed.

Lemma degenerate_false (S K T sigma : R) :
  0 < S -> 0 < K -> 0 < T -> 0 < sigma -> degenerate S K T sigma = false.
Proof.
  intros HS HK HT Hs. unfold degenerate. now rewrite !float_le_false.
Qed.

Lemma float_div_nonzero (a b : R) : b <> 0 -> float_div a b = Ok (a / b).
Proof. intros H. unfold float_div. now destruct (Req_EM_T b 0). Qed.

(** C2. For valid parameters the two price functions return the
    Black-Scholes closed forms: [S Phi(d1) - K e^(-rT) Phi(d2)] for the call
    and [K e^(-rT) Phi(-d2) - S Phi(-d1)] for the put. *)
Theorem black_scholes_closed_form (S K T r sigma : R) :
  0 < S -> 0 < K -> 0 < T -> 0 < sigma ->
  let d1 := Reference.d1 S K T r sigma in
  let d2 := Reference.d2 S K T r sigma in
  black_scholes_call S K T r sigma
  = Ok (S * norm_cdf d1 - K * exp (- (r * T)) * norm_cdf d2) /\
  black_scholes_put S K T r sigma
  = Ok (K * exp (- (r * T)) * norm_cdf (- d2) - S * norm_cdf (- d1)).
Proof.
  intros HS HK HT Hs d1 d2.
  unfold black_scholes_call, black_scholes_put.
  rewrite degenerate_false, float_div_nonzero by lra. unfold bind.
  assert (E1 : (ln (S / K) + (r + 0.5 * sigma ^ 2) * T) / (sigma * sqrt T) = d1).
  { unfold d1, Reference.d1. do 3 f_equal. lra. }
  rewrite E1. fold (Reference.d2 S K T r sigma).
  replace (- r * T) with (- (r * T)) by ring.
  unfold d2, Reference.d2. fold d1. split; reflexivity.
Qed.

Lemma black_scholes_closed_form_witness :
  let d1 := Reference.d1 100 100 1 0.02 0.2 in
  let d2 := Reference.d2 100 100 1 0.02 0.2 in
  black_scholes_call 100 100 1 0.02 0.2
  = Ok (100 * norm_cdf d1 - 100 * exp (- (0.02 * 1)) * norm_cdf d2) /\
  black_scholes_put 100 100 1 0.02 0.2
  = Ok (100 * exp (- (0.02 * 1)) * norm_cdf (- d2) - 100 * norm_cdf (- d1)).
Proof.
  apply (black_scholes_closed_form 100 100 1 0.02 0.2); lra.
Defined.

(** C3. Put-call parity: for valid parameters both functions return a price
    and call minus put is exactly [S - K e^(-rT)]. *)
Theorem put_call_parity (S K T r sigma : R) :
  0 < S -> 0 < K -> 0 < T -> 0 < sigma ->
  exists c q : R,
    black_scholes_call S K T r sigma = Ok c /\
    black_scholes_put S K T r sigma = Ok q /\
    c - q = S - K * exp (- (r * T)).
Proof.
  intros HS HK HT Hs.
  unfold black_scholes_call, black_scholes_put.
  rewrite degenerate_false, float_div_nonzero by lra. unfold bind.
  do 2 eexists. split; [reflexivity|]. split; [reflexivity|].
  cbv zeta. rewrite !norm_cdf_symmetry.
  replace (- r * T) with (- (r * T)) by ring. ring.
Qed.

Lemma put_call_parity_witness :
  exists c q : R,
    black_scholes_call 100 100 1 0.02 0.2 = Ok c /\
    black_scholes_put 100 100 1 0.02 0.2 = Ok q /\
    c - q = 100 - 100 * exp (- (0.02 * 1)).
Proof.
  apply (put_call_parity 100 100 1 0.02 0.2); lra.
Defined.

(** C4. On a degenerate input, [T <= 0] or [sigma <= 0] or [S <= 0] or
    [K <= 0], both price functions return 0.0 and raise nothing. *)
Theorem black_scholes_degenerate (S K T r sigma : R) :
  T <= 0 \/ sigma <= 0 \/ S <= 0 \/ K <= 0 ->
  black_scholes_call S K T r sigma = Ok 0 /\
  black_scholes_put S K T r sigma = Ok 0.
Proof.
  intros H. unfold black_scholes_call, black_scholes_put.
  now rewrite (degenerate_true _ _ _ _ H).
Qed.

Lemma black_scholes_degenerate_witness :
  black_scholes_call 100 100 0 0.02 0.2 = Ok 0 /\
  black_scholes_put 100 100 0 0.02 0.2 = Ok 0.
Proof.
  apply (black_scholes_degenerate 100 100 0 0.02 0.2). left. lra.
Defined.

End BlackScholesFacts.

(** ** The simulation engine *)

Lemma fold_right_sum (f : nat -> R) (a n : nat) :
  fold_right Rplus 0 (map f (seq a (S n))) = sum_f_R0 (fun i => f (a + i)%nat) n.
Proof.
  revert a. induction n as [|n IH]; intros a.
  - simpl. rewrite Nat.add_0_r. ring.
  - rewrite <- cons_seq. cbn [map fold_right]. rewrite IH.
    rewrite (decomp_sum (fun i => f (a + i)%nat) (S n)) by lia.
    rewrite Nat.add_0_r. simpl pred. f_equal.
    apply sum_eq. intros i _. f_equal. lia.
Qed.

Lemma np_mean_indexed (f : nat -> R) (N : nat) :
  (1 <= N)%nat -> np_mean (map f (seq 0 N)) = Reference.mean_of N f.
Proof.
  intros HN. unfold np_mean, Reference.mean_of.
  rewrite length_map, length_seq.
  destruct N as [|n]; [lia|]. rewrite fold_right_sum. f_equal.
  now replace (S n - 1)%nat with n by lia.
Qed.

Lemma occurs_app (c : Ascii.ascii) (a b : string) :
  occurs c (a ++ b)%string = (occurs c a || occurs c b)%bool.
Proof.
  induction a as [|c' a IH]; simpl; [reflexivity|].
  rewrite IH. now rewrite Bool.orb_assoc.
Qed.

Lemma names_occurs (msg value : string) (c : Ascii.ascii) :
  names msg value -> occurs c value = true -> occurs c msg = true.
Proof.
  intros [pre [post ->]] H. rewrite !occurs_app, H.
  now rewrite Bool.orb_true_r.
Qed.

Lemma append_empty (a : string) : (a ++ "")%string = a.
Proof. induction a as [|c a IH]; simpl; [reflexivity | now rewrite IH]. Qed.

Lemma names_suffix (pre value : string) : names (pre ++ value)%string value.
Proof. exists pre, ""%string. now rewrite append_empty. Qed.

Module MonteCarloFacts.
Import MonteCarlo.

Section Price.

Variable intrinsic : R -> R.
Variables (S T r sigma : R) (simulations steps : nat).

(** The European branch, run from the generator state [g]. *)
Lemma price_european (g : rng) :
  price intrinsic S T r sigma simulations steps "European" g =
  (Ok (exp (- r * T) *
       np_mean (map (fun i => Rmax (intrinsic
                                      (S * exp ((r - 0.5 * sigma ^ 2) * T
                                                + sigma * sqrt T * g i))) 0)
                    (seq 0 simulations))),
   advance simulations g).
Proof.
  unfold price. cbn [String.eqb Ascii.eqb Bool.eqb].
  unfold sbind, randn, ret. now rewrite !map_map.
Qed.

Lemma price_european_estimate (g : rng) :
  (1 <= simulations)%nat ->
  fst (price intrinsic S T r sigma simulations steps "European" g) =
  Ok (exp (- (r * T)) *
      Reference.mean_of simulations
        (fun i => Rmax (intrinsic (Reference.terminal_price S T r sigma (g i))) 0)).
Proof.
  intros HN. rewrite price_european. cbn [fst].
  rewrite np_mean_indexed by assumption.
  replace (- r * T) with (- (r * T)) by ring.
  do 2 f_equal. unfold Reference.mean_of. f_equal.
  apply sum_eq. intros i _. unfold Reference.terminal_price.
  do 4 f_equal. lra.
Qed.

(** The last branch, for a style that is neither of the two. *)
Lemma price_unsupported (option_type : string) (g : rng) :
  option_type <> "European" -> option_type <> "Asian" ->
  price intrinsic S T r sigma simulations steps option_type g =
  (Raise (ValueError ("Unsupported option_type: " ++ option_type)%string), g).
Proof.
  intros HE HA. unfold price.
  apply String.eqb_neq in HE. apply String.eqb_neq in HA.
  now rewrite HE, HA.
Qed.

(** The Asian branch returns a price unless [steps] is zero. *)
Lemma price_asian (g : rng) :
  (exists v g', price intrinsic S T r sigma simulations steps "Asian" g = (Ok v, g'))
  \/ price intrinsic S T r sigma simulations steps "Asian" g
     = (Raise (ZeroDivisionError "float division by zero"), g).
Proof.
  unfold price. cbn [String.eqb Ascii.eqb Bool.eqb].
  unfold sbind, lift, truediv. destruct steps as [|n].
  - now right.
  - left. unfold randn2, ret. do 2 eexists. reflexivity.
Qed.

Lemma price_fails_naming (option_type : string) (g : rng) :
  fails_naming (fst (price intrinsic S T r sigma simulations steps option_type g))
    option_type
  <-> option_type <> "European" /\ option_type <> "Asian".
Proof.
  split.
  - intros [e [He Hn]]. split; intros ->.
    + rewrite price_european in He. discriminate.
    + destruct (price_asian g) as [[v [g' Hv]]|Hz]; rewrite ?Hv, ?Hz in He;
        cbn [fst] in He; [discriminate|].
      injection He as <-. cbn [message] in Hn.
      pose proof (names_occurs _ _ "A"%char Hn eq_refl). discriminate.
  - intros [HE HA]. rewrite price_unsupported by assumption. cbn [fst].
    eexists. split; [reflexivity|]. cbn [message]. apply names_suffix.
Qed.

End Price.

(** C5. With the draws read off the generator state [g], the European
    style of [monte_carlo_call] (of [monte_carlo_put]) returns [e^(-rT)]
    times the mean over the [N] draws of [max(S_T - K, 0)] (of
    [max(K - S_T, 0)]), [S_T] being the terminal price driven by each draw.
    Stated for [N >= 1] draws and a maturity [T >= 0], where [sqrt(T)] and the
    mean are real numbers; every spot, strike, volatility and rate. *)
Theorem monte_carlo_european_estimate
  (S K T r sigma : R) (N steps : nat) (g : rng) :
  (1 <= N)%nat -> 0 <= T ->
  fst (monte_carlo_call S K T r sigma N steps "European" g) =
  Ok (exp (- (r * T)) *
      Reference.mean_of N
        (fun i => Rmax (Reference.terminal_price S T r sigma (g i) - K) 0)) /\
  fst (monte_carlo_put S K T r sigma N steps "European" g) =
  Ok (exp (- (r * T)) *
      Reference.mean_of N
        (fun i => Rmax (K - Reference.terminal_price S T r sigma (g i)) 0)).
Proof.
  intros HN _. unfold monte_carlo_call, monte_carlo_put.
  split; now apply price_european_estimate.
Qed.

Lemma monte_carlo_european_estimate_witness :
  fst (monte_carlo_call 100 100 1 0.02 0.2 2 100 "European" alternating) =
  Ok (exp (- (0.02 * 1)) *
      Reference.mean_of 2
        (fun i => Rmax (Reference.terminal_price 100 1 0.02 0.2 (alternating i)
                        - 100) 0)) /\
  fst (monte_carlo_put 100 100 1 0.02 0.2 2 100 "European" alternating) =
  Ok (exp (- (0.02 * 1)) *
      Reference.mean_of 2
        (fun i => Rmax (100 - Reference.terminal_price 100 1 0.02 0.2
                                (alternating i)) 0)).
Proof.
  apply (monte_carlo_european_estimate 100 100 1 0.02 0.2 2 100 alternating);
    [lia | lra].
Defined.

(** C6. [monte_carlo_call] and [monte_carlo_put] fail with an error naming
    the style they were given exactly when it is neither ["European"] nor
    ["Asian"]; ["Bermudan"] fails with
    [ValueError("Unsupported option_type: Bermudan")] whatever the other
    arguments and the generator state. *)
Theorem monte_carlo_rejects_unknown_style
  (S K T r sigma : R) (N steps : nat) (option_type : string) (g : rng) :
  (fails_naming (fst (monte_carlo_call S K T r sigma N steps option_type g))
     option_type
   <-> option_type <> "European" /\ option_type <> "Asian") /\
  (fails_naming (fst (monte_carlo_put S K T r sigma N steps option_type g))
     option_type
   <-> option_type <> "European" /\ option_type <> "Asian") /\
  fst (monte_carlo_call S K T r sigma N steps "Bermudan" g)
  = Raise (ValueError "Unsupported option_type: Bermudan") /\
  fst (monte_carlo_put S K T r sigma N steps "Bermudan" g)
  = Raise (ValueError "Unsupported option_type: Bermudan").
Proof.
  unfold monte_carlo_call, monte_carlo_put.
  split; [apply price_fails_naming|]. split; [apply price_fails_naming|].
  split; rewrite price_unsupported by discriminate; reflexivity.
Qed.

(** *** What a call takes from the generator *)

Lemma agree_le (n m : nat) (g g' : rng) :
  agree n g g' -> (m <= n)%nat -> agree m g g'.
Proof. intros H Hm i Hi. apply H. lia. Qed.

Lemma agree_advance (n j : nat) (g g' : rng) :
  agree (n + j) g g' -> agree j (advance n g) (advance n g').
Proof. intros H i Hi. unfold advance. apply H. lia. Qed.

Lemma reads_ret {A : Type} (a : A) : reads 0 (ret a).
Proof. intros j g g' H. split; [reflexivity | exact H]. Qed.

Lemma reads_lift {A : Type} (m : result A) : reads 0 (lift m).
Proof. intros j g g' H. split; [reflexivity | exact H]. Qed.

Lemma reads_raise {A : Type} (e : exn) : reads 0 (@raise A e).
Proof. intros j g g' H. split; [reflexivity | exact H]. Qed.

Lemma reads_randn (n : nat) : reads n (randn n).
Proof.
  intros j g g' H. split; [|now apply agree_advance].
  cbn. f_equal. apply map_ext_in. intros i Hi.
  apply in_seq in Hi. apply H. lia.
Qed.

Lemma reads_randn2 (n m : nat) : reads (n * m) (randn2 n m).
Proof.
  intros j g g' H. split; [|now apply agree_advance].
  cbn. f_equal. apply map_ext_in. intros i Hi. apply in_seq in Hi.
  apply map_ext_in. intros t Ht. apply in_seq in Ht.
  apply H. nia.
Qed.

Lemma reads_bind {A B : Type} (n n' : nat) (m : sim A) (k : A -> sim B) :
  reads n m -> (forall a, reads n' (k a)) -> reads (n + n') (sbind m k).
Proof.
  intros Hm Hk j g g' H.
  destruct (Hm (n' + j)%nat g g') as [Hv Hs].
  { intros i Hi. apply H. lia. }
  unfold sbind. destruct (m g) as [v s1], (m g') as [v' s2].
  cbn [fst snd] in Hv, Hs. subst v'. destruct v as [a|e].
  - now apply Hk.
  - split; [reflexivity|]. apply (agree_le _ _ _ _ Hs). lia.
Qed.

Lemma reads_price (intrinsic : R -> R) (S T r sigma : R)
  (simulations steps : nat) (option_type : string) :
  reads (if String.eqb option_type "European" then simulations
         else if String.eqb option_type "Asian" then simulations * steps
         else 0)
        (price intrinsic S T r sigma simulations steps option_type).
Proof.
  unfold price.
  destruct (String.eqb option_type "European");
    [|destruct (String.eqb option_type "Asian")].
  - rewrite <- (Nat.add_0_r simulations) at 1.
    apply reads_bind; [apply reads_randn | intros; apply reads_ret].
  - change (simulations * steps)%nat with (0 + simulations * steps)%nat.
    apply reads_bind; [apply reads_lift|]. intros dt.
    rewrite <- (Nat.add_0_r (simulations * steps)).
    apply reads_bind; [apply reads_randn2 | intros; apply reads_ret].
  - apply reads_raise.
Qed.

Lemma reads_greeks (intrinsic : R -> R) (S T r sigma : R)
  (simulations : nat) (epsilon : R) :
  reads (9 * simulations) (greeks intrinsic S T r sigma simulations epsilon).
Proof.
  replace (9 * simulations)%nat
    with (simulations + (simulations + (simulations + (simulations
          + (simulations + (simulations + (simulations + (simulations
          + (simulations + 0)))))))))%nat by lia.
  unfold greeks.
  repeat (apply reads_bind;
          [apply (reads_price intrinsic _ _ _ _ simulations 100 "European")
          | intros ?]).
  apply reads_ret.
Qed.

(** C9, as the code has it. The analytic and lattice functions take
    nothing from the generator (in the embedding they are plain functions of
    their arguments).  The simulation functions are functions of their
    arguments and of the state of the process-wide generator: a European
    price depends on its next [N] variates and leaves it advanced by [N], an
    Asian price depends on the next [N * steps], the Greeks on the next
    [9 * N]; from equal arguments and generator states that agree on that
    window the results are equal. *)
Theorem engines_depend_on_arguments_and_generator
  (S K T r sigma epsilon : R) (N steps : nat) (option_type : string) :
  (reads 0 (lift (BlackScholes.black_scholes_call S K T r sigma)) /\
   reads 0 (lift (BlackScholes.black_scholes_put S K T r sigma)) /\
   reads 0 (lift (BlackScholes.black_scholes_greeks_call S K T r sigma)) /\
   reads 0 (lift (BlackScholes.black_scholes_greeks_put S K T r sigma)) /\
   reads 0 (lift (Binomial.binomial_call S K T r sigma steps option_type)) /\
   reads 0 (lift (Binomial.binomial_put S K T r sigma steps option_type)) /\
   reads 0 (lift (Binomial.binomial_greeks_call S K T r sigma steps option_type)) /\
   reads 0 (lift (Binomial.binomial_greeks_put S K T r sigma steps option_type))) /\
  (reads N (monte_carlo_call S K T r sigma N steps "European") /\
   reads N (monte_carlo_put S K T r sigma N steps "European") /\
   reads (N * steps) (monte_carlo_call S K T r sigma N steps "Asian") /\
   reads (N * steps) (monte_carlo_put S K T r sigma N steps "Asian") /\
   reads (9 * N) (monte_carlo_greeks_call S K T r sigma N epsilon) /\
   reads (9 * N) (monte_carlo_greeks_put S K T r sigma N epsilon)) /\
  (forall g : rng,
     snd (monte_carlo_call S K T r sigma N steps "European" g) = advance N g /\
     snd (monte_carlo_put S K T r sigma N steps "European" g) = advance N g).
Proof.
  split; [repeat (split; [apply reads_lift|]); apply reads_lift|]. split.
  - unfold monte_carlo_call, monte_carlo_put,
      monte_carlo_greeks_call, monte_carlo_greeks_put.
    split; [apply (reads_price _ S T r sigma N steps "European")|].
    split; [apply (reads_price _ S T r sigma N steps "European")|].
    split; [apply (reads_price _ S T r sigma N steps "Asian")|].
    split; [apply (reads_price _ S T r sigma N steps "Asian")|].
    split; apply reads_greeks.
  - intros g. unfold monte_carlo_call, monte_carlo_put.
    rewrite !price_european. split; reflexivity.
Qed.

(** A one-path call made where the previous one left the generator returns
    another price as soon as the two variates fall on either side of zero. *)
Lemma successive_calls_differ (g : rng) :
  g 1%nat <= 0 < g 0%nat ->
  let call := monte_carlo_call 100 100 1 0.02 0.2 1 100 "European" in
  fst (call g) <> fst (call (snd (call g))).
Proof.
  intros [Hlo Hhi] call. unfold call, monte_carlo_call.
  rewrite !price_european. cbn [fst snd seq map]. unfold np_mean.
  cbn [fold_right List.length]. unfold advance. cbn [Nat.add]. rewrite sqrt_1.
  replace ((0.02 - 0.5 * 0.2 ^ 2) * 1 + 0.2 * 1 * g 0%nat)
    with (0.2 * g 0%nat) by lra.
  replace ((0.02 - 0.5 * 0.2 ^ 2) * 1 + 0.2 * 1 * g 1%nat)
    with (0.2 * g 1%nat) by lra.
  assert (Hup : 1 < exp (0.2 * g 0%nat))
    by (rewrite <- exp_0; apply exp_increasing; lra).
  assert (Hdn : exp (0.2 * g 1%nat) <= 1).
  { rewrite <- exp_0. destruct Hlo as [Hlo|Hlo].
    - left. apply exp_increasing. lra.
    - right. f_equal. lra. }
  pose proof (exp_pos (- (0.02) * 1)) as Hc.
  rewrite (Rmax_left (100 * exp (0.2 * g 0%nat) - 100) 0) by lra.
  rewrite (Rmax_right (100 * exp (0.2 * g 1%nat) - 100) 0) by lra.
  intros H. injection H as H. simpl INR in H.
  assert (0 < exp (- (0.02) * 1) * ((100 * exp (0.2 * g 0%nat) - 100 + 0) / 1)).
  { apply Rmult_lt_0_compat; lra. }
  lra.
Qed.

(** C9, as stated, fails for the simulation engine: two calls of
    [monte_carlo_call] with the same arguments, the second made where the
    first left the generator, return different prices. *)
Lemma monte_carlo_call_twice_differs :
  let call := monte_carlo_call 100 100 1 0.02 0.2 1 100 "European" in
  fst (call alternating) <> fst (call (snd (call alternating))).
Proof.
  apply successive_calls_differ. unfold alternating. cbn [Nat.even]. lra.
Qed.

End MonteCarloFacts.

(** * Further properties of the engines *)

(** ** The lattice *)

Module LatticeProperties.
Import Binomial BinomialFacts.

Lemma price_returns (intrinsic : R -> R) (steps : nat) (option_type : string)
  (S T r sigma : R) :
  (1 <= steps)%nat ->
  price intrinsic steps option_type S T r sigma =
  Ok (nth 0 (option_values
               (state_after intrinsic steps option_type S r sigma
                  (T / INR steps) 0)) 0).
Proof.
  intros Hsteps. unfold price. rewrite truediv_pos by assumption. unfold bind.
  destruct (state_after_lengths intrinsic steps option_type S r sigma
              (T / INR steps) 0) as [_ HV]; [lia|].
  now rewrite backward_state_after, getitem0_single.
Qed.

(** X1. The only failure of [binomial_call] and [binomial_put] is the
    division [T / steps]: with [steps = 0] both raise [ZeroDivisionError],
    with [steps >= 1] both return a price, whatever the style and the other
    arguments; the final [option_values[0]] never raises. *)
Theorem binomial_fails_only_on_zero_steps
  (S K T r sigma : R) (steps : nat) (option_type : string) :
  (steps = 0%nat /\
   binomial_call S K T r sigma steps option_type
   = Raise (ZeroDivisionError "float division by zero") /\
   binomial_put S K T r sigma steps option_type
   = Raise (ZeroDivisionError "float division by zero")) \/
  ((1 <= steps)%nat /\
   exists c q : R,
     binomial_call S K T r sigma steps option_type = Ok c /\
     binomial_put S K T r sigma steps option_type = Ok q).
Proof.
  destruct steps as [|n].
  - left. repeat split.
  - right. split; [lia|]. unfold binomial_call, binomial_put.
    rewrite !price_returns by lia. do 2 eexists. split; reflexivity.
Qed.

(** X2. The loop passes through [state_after i] for every [i <= steps], and
    there both arrays have length [i + 1]: each pass drops exactly one
    entry of the asset prices and of the option values. *)
Theorem lattice_arrays_shrink_by_one
  (intrinsic : R -> R) (steps : nat) (option_type : string)
  (S r sigma dt : R) (i : nat) :
  (i <= steps)%nat ->
  let st := state_after intrinsic steps option_type S r sigma dt i in
  backward intrinsic steps option_type S r sigma dt
  = fold_left (body intrinsic option_type r sigma dt) (rev (seq 0 i)) st /\
  List.length (ST st) = (i + 1)%nat /\
  List.length (option_values st) = (i + 1)%nat.
Proof.
  intros Hi st. split; [|now apply state_after_lengths].
  unfold backward, st, state_after.
  replace steps with (i + (steps - i))%nat at 1 by lia.
  rewrite seq_app, rev_app_distr, fold_left_app. reflexivity.
Qed.

Lemma lattice_arrays_shrink_by_one_witness :
  let st := state_after (fun s => s - 100) 3 "American" 100 0.02 0.2 (1 / 3) 1 in
  backward (fun s => s - 100) 3 "American" 100 0.02 0.2 (1 / 3)
  = fold_left (body (fun s => s - 100) "American" 0.02 0.2 (1 / 3))
      (rev (seq 0 1)) st /\
  List.length (ST st) = (1 + 1)%nat /\
  List.length (option_values st) = (1 + 1)%nat.
Proof.
  apply (lattice_arrays_shrink_by_one (fun s => s - 100) 3 "American"
           100 0.02 0.2 (1 / 3) 1).
  lia.
Defined.

(** *** Parity on the tree *)

Lemma Rmax_parity (a : R) : Rmax a 0 - Rmax (- a) 0 = a.
Proof.
  destruct (Rle_dec 0 a) as [H|H].
  - rewrite Rmax_left, Rmax_right; lra.
  - rewrite Rmax_right, Rmax_left; lra.
Qed.

Lemma sum_minus (f g : nat -> R) (n : nat) :
  sum_f_R0 f n - sum_f_R0 g n = sum_f_R0 (fun j => f j - g j) n.
Proof.
  induction n as [|n IH]; simpl; [reflexivity|]. rewrite <- IH. ring.
Qed.

Lemma weights_total (p q : R) (n : nat) :
  sum_f_R0 (Reference.weight p q n) n = (p + q) ^ n.
Proof. now rewrite binomial. Qed.

Lemma weighted_node_prices (p q S u d : R) (n : nat) :
  sum_f_R0 (fun j => Reference.weight p q n j * (S * u ^ j * d ^ (n - j))) n
  = S * (p * u + q * d) ^ n.
Proof.
  rewrite binomial, scal_sum. apply sum_eq. intros j _.
  unfold Reference.weight. rewrite !Rpow_mult_distr. ring.
Qed.

Lemma up_probability_martingale (r sigma dt : R) :
  0 < sigma -> 0 < dt ->
  p r sigma dt * u sigma dt + (1 - p r sigma dt) * d sigma dt = exp (r * dt).
Proof.
  intros Hs Ht. destruct (u_above_d sigma dt Hs Ht) as [Hd Hu].
  unfold p. field. lra.
Qed.

(** X3. Put-call parity on the tree: for [sigma > 0], [T > 0], [steps >= 1]
    and a style other than ["American"], [binomial_call] minus [binomial_put]
    is exactly [S - K e^(-rT)], for every rate, spot and strike. *)
Theorem binomial_put_call_parity
  (S K T r sigma : R) (steps : nat) (option_type : string) :
  0 < T -> 0 < sigma -> (1 <= steps)%nat -> option_type <> "American" ->
  exists c q : R,
    binomial_call S K T r sigma steps option_type = Ok c /\
    binomial_put S K T r sigma steps option_type = Ok q /\
    c - q = S - K * exp (- (r * T)).
Proof.
  intros HT Hs Hsteps HA. unfold binomial_call, binomial_put.
  rewrite !price_closed_form by assumption.
  do 2 eexists. split; [reflexivity|]. split; [reflexivity|].
  unfold Reference.crr_expectation.
  assert (Hn : 0 < INR steps) by (apply lt_0_INR; lia).
  assert (Hdt : 0 < T / INR steps) by now apply Rdiv_lt_0_compat.
  set (dt := T / INR steps) in *.
  fold (u sigma dt) (d sigma dt) (p r sigma dt).
  rewrite <- Rmult_minus_distr_l, sum_minus.
  rewrite (sum_eq _ (fun j => Reference.weight (p r sigma dt) (1 - p r sigma dt) steps j
                              * (S * u sigma dt ^ j * d sigma dt ^ (steps - j))
                              - Reference.weight (p r sigma dt)
                                  (1 - p r sigma dt) steps j * K)).
  - rewrite <- sum_minus, weighted_node_prices, <- scal_sum, weights_total.
    rewrite up_probability_martingale by assumption.
    replace (p r sigma dt + (1 - p r sigma dt)) with 1 by ring.
    rewrite pow1, exp_pow_nat.
    replace (INR steps * (r * dt)) with (r * T) by (unfold dt; field; lra).
    assert (E : exp (- (r * T)) * exp (r * T) = 1).
    { rewrite <- exp_plus, <- exp_0. f_equal. ring. }
    replace (- r * T) with (- (r * T)) by ring.
    transitivity (S * (exp (- (r * T)) * exp (r * T)) - K * exp (- (r * T)));
      [ring | rewrite E; ring].
  - intros j _. rewrite <- Rmult_minus_distr_l.
    replace (K - S * u sigma dt ^ j * d sigma dt ^ (steps - j))
      with (- (S * u sigma dt ^ j * d sigma dt ^ (steps - j) - K)) by ring.
    rewrite Rmax_parity. ring.
Qed.

Lemma binomial_put_call_parity_witness :
  exists c q : R,
    binomial_call 100 100 1 0.02 0.2 3 "European" = Ok c /\
    binomial_put 100 100 1 0.02 0.2 3 "European" = Ok q /\
    c - q = 100 - 100 * exp (- (0.02 * 1)).
Proof.
  apply (binomial_put_call_parity 100 100 1 0.02 0.2 3 "European");
    try lra; try lia; discriminate.
Defined.

(** *** Bounds of the European price *)

Lemma weight_nonnegative (p q : R) (n j : nat) :
  0 <= p -> 0 <= q -> 0 <= Reference.weight p q n j.
Proof.
  intros Hp Hq. unfold Reference.weight, C.
  repeat apply Rmult_le_pos; try (apply pow_le; assumption).
  - apply pos_INR.
  - left. apply Rinv_0_lt_compat.
    apply Rmult_lt_0_compat; apply lt_0_INR, lt_O_fact.
Qed.

(** X4. With a non-negative spot and strike and an up-probability in
    [0, 1], the prices of a style other than ["American"] respect the
    no-arbitrage bounds: [binomial_call] returns at most [S] and
    [binomial_put] at most [K e^(-rT)]. *)
Theorem binomial_european_upper_bounds
  (S K T r sigma : R) (steps : nat) (option_type : string) :
  0 <= S -> 0 <= K -> 0 < T -> 0 < sigma -> (1 <= steps)%nat ->
  option_type <> "American" ->
  - (sigma * sqrt (T / INR steps)) <= r * (T / INR steps)
    <= sigma * sqrt (T / INR steps) ->
  exists c q : R,
    binomial_call S K T r sigma steps option_type = Ok c /\
    binomial_put S K T r sigma steps option_type = Ok q /\
    c <= S /\ q <= K * exp (- (r * T)).
Proof.
  intros HS HK HT Hs Hsteps HA Hr. unfold binomial_call, binomial_put.
  rewrite !price_closed_form by assumption.
  do 2 eexists. split; [reflexivity|]. split; [reflexivity|].
  unfold Reference.crr_expectation.
  assert (Hn : 0 < INR steps) by (apply lt_0_INR; lia).
  assert (Hdt : 0 < T / INR steps) by now apply Rdiv_lt_0_compat.
  set (dt := T / INR steps) in *.
  fold (u sigma dt) (d sigma dt) (p r sigma dt).
  destruct (p_range r sigma dt Hs Hdt Hr) as [Hp0 Hp1].
  destruct (u_above_d sigma dt Hs Hdt) as [Hd1 Hu1].
  pose proof (u_d_inverse sigma dt) as Hud.
  assert (Hd0 : 0 < d sigma dt) by nra.
  pose proof (exp_pos (- r * T)) as He.
  assert (Hx : forall j, 0 <= S * u sigma dt ^ j * d sigma dt ^ (steps - j)).
  { intros j. repeat apply Rmult_le_pos; [assumption | |]; apply pow_le; lra. }
  assert (Hw : forall j, 0 <= Reference.weight (p r sigma dt) (1 - p r sigma dt)
                                steps j)
    by (intros j; apply weight_nonnegative; lra).
  split.
  - apply Rle_trans with
      (exp (- r * T) *
       sum_f_R0 (fun j => Reference.weight (p r sigma dt) (1 - p r sigma dt) steps j
                          * (S * u sigma dt ^ j * d sigma dt ^ (steps - j))) steps).
    + apply Rmult_le_compat_l; [lra|]. apply sum_Rle. intros j _.
      apply Rmult_le_compat_l; [apply Hw|].
      apply Rmax_lub; [lra | apply Hx].
    + rewrite weighted_node_prices, up_probability_martingale by assumption.
      rewrite exp_pow_nat.
      replace (INR steps * (r * dt)) with (r * T) by (unfold dt; field; lra).
      assert (E : exp (- r * T) * exp (r * T) = 1).
      { rewrite <- exp_plus, <- exp_0. f_equal. ring. }
      right. transitivity (S * (exp (- r * T) * exp (r * T))); [ring|].
      rewrite E. ring.
  - apply Rle_trans with
      (exp (- r * T) *
       sum_f_R0 (fun j => Reference.weight (p r sigma dt) (1 - p r sigma dt) steps j
                          * K) steps).
    + apply Rmult_le_compat_l; [lra|]. apply sum_Rle. intros j _.
      apply Rmult_le_compat_l; [apply Hw|].
      apply Rmax_lub; [|assumption]. specialize (Hx j). lra.
    + rewrite <- scal_sum, weights_total.
      replace (p r sigma dt + (1 - p r sigma dt)) with 1 by ring.
      rewrite pow1. replace (- r * T) with (- (r * T)) by ring. right. ring.
Qed.

Lemma binomial_european_upper_bounds_witness :
  exists c q : R,
    binomial_call 100 100 1 0.02 0.2 1 "European" = Ok c /\
    binomial_put 100 100 1 0.02 0.2 1 "European" = Ok q /\
    c <= 100 /\ q <= 100 * exp (- (0.02 * 1)).
Proof.
  apply (binomial_european_upper_bounds 100 100 1 0.02 0.2 1 "European");
    try lra; try lia; try discriminate.
  replace (1 / INR 1) with 1 by (simpl; lra). rewrite sqrt_1. lra.
Defined.

(** *** Sign and scale of the price *)

Section Values.

Variable intrinsic : R -> R.
Variables (steps : nat) (option_type : string) (S r sigma dt : R).

Lemma values_nonnegative (m i k : nat) :
  0 <= p r sigma dt <= 1 ->
  (i + m = steps)%nat -> (k <= i)%nat ->
  0 <= nth k (option_values
                (state_after intrinsic steps option_type S r sigma dt i)) 0.
Proof.
  intros Hp. revert i k. induction m as [|m IH]; intros i k Hm Hk.
  - replace i with steps by lia.
    rewrite state_after_top, terminal_value_nth by lia. apply Rmax_r.
  - rewrite state_after_step by lia.
    destruct (state_after_lengths intrinsic steps option_type S r sigma dt (i + 1))
      as [HS HV]; try lia.
    rewrite body_value_nth by (rewrite ?HS, ?HV; lia).
    assert (Hc : 0 <= continuation r sigma dt
                        (state_after intrinsic steps option_type S r sigma dt (i + 1)) k).
    { unfold continuation.
      pose proof (IH (i + 1)%nat (k + 1)%nat ltac:(lia) ltac:(lia)).
      pose proof (IH (i + 1)%nat k ltac:(lia) ltac:(lia)).
      apply Rmult_le_pos; [left; apply exp_pos|].
      apply Rplus_le_le_0_compat; apply Rmult_le_pos; lra. }
    destruct (String.eqb option_type "American"); [|exact Hc].
    eapply Rle_trans; [exact Hc | apply Rmax_l].
Qed.

Variables (intrinsic' : R -> R) (c : R).
Hypothesis c_nonneg : 0 <= c.
Hypothesis intrinsic_scales : forall x : R, intrinsic' (c * x) = c * intrinsic x.

Lemma values_scale (m i k : nat) :
  (i + m = steps)%nat -> (k <= i)%nat ->
  nth k (option_values
           (state_after intrinsic' steps option_type (c * S) r sigma dt i)) 0
  = c * nth k (option_values
                 (state_after intrinsic steps option_type S r sigma dt i)) 0.
Proof.
  revert i k. induction m as [|m IH]; intros i k Hm Hk.
  - replace i with steps by lia.
    rewrite !state_after_top, !terminal_value_nth by lia.
    replace (c * S * u sigma dt ^ k * d sigma dt ^ (steps - k))
      with (c * (S * u sigma dt ^ k * d sigma dt ^ (steps - k))) by ring.
    rewrite intrinsic_scales, <- RmaxRmult by assumption. f_equal. ring.
  - rewrite (state_after_step intrinsic'), (state_after_step intrinsic) by lia.
    destruct (state_after_lengths intrinsic steps option_type S r sigma dt (i + 1))
      as [HS HV]; try lia.
    destruct (state_after_lengths intrinsic' steps option_type (c * S) r sigma dt
                (i + 1)) as [HS' HV']; try lia.
    rewrite (body_value_nth intrinsic'), (body_value_nth intrinsic)
      by (rewrite ?HS, ?HV, ?HS', ?HV'; lia).
    unfold continuation.
    rewrite (IH (i + 1)%nat (k + 1)%nat), (IH (i + 1)%nat k) by lia.
    rewrite !state_after_ST_nth by lia.
    destruct (String.eqb option_type "American"); [|ring].
    replace (c * S * u sigma dt ^ k * d sigma dt ^ (steps - k)
             / u sigma dt ^ (steps - (i + 1)) / u sigma dt)
      with (c * (S * u sigma dt ^ k * d sigma dt ^ (steps - k)
                 / u sigma dt ^ (steps - (i + 1)) / u sigma dt))
      by (unfold Rdiv; ring).
    rewrite intrinsic_scales, <- RmaxRmult by assumption. f_equal. ring.
Qed.

End Values.

(** X5. When the growth over one step lies between the down and the up
    factor (the up-probability is in [0, 1]), [binomial_call] and
    [binomial_put] return a non-negative price, for every style, spot and
    strike. *)
Theorem binomial_price_nonnegative
  (S K T r sigma : R) (steps : nat) (option_type : string) :
  0 < T -> 0 < sigma -> (1 <= steps)%nat ->
  - (sigma * sqrt (T / INR steps)) <= r * (T / INR steps)
    <= sigma * sqrt (T / INR steps) ->
  exists c q : R,
    binomial_call S K T r sigma steps option_type = Ok c /\
    binomial_put S K T r sigma steps option_type = Ok q /\
    0 <= c /\ 0 <= q.
Proof.
  intros HT Hs Hsteps Hr.
  assert (Hdt : 0 < T / INR steps).
  { apply Rdiv_lt_0_compat; [assumption|]. apply lt_0_INR. lia. }
  pose proof (p_range r sigma (T / INR steps) Hs Hdt Hr) as Hp.
  unfold binomial_call, binomial_put. rewrite !price_returns by assumption.
  do 2 eexists. split; [reflexivity|]. split; [reflexivity|].
  split; apply (values_nonnegative _ steps option_type S r sigma _ steps 0 0 Hp);
    lia.
Qed.

Lemma binomial_price_nonnegative_witness :
  exists c q : R,
    binomial_call 100 100 1 0.02 0.2 1 "American" = Ok c /\
    binomial_put 100 100 1 0.02 0.2 1 "American" = Ok q /\
    0 <= c /\ 0 <= q.
Proof.
  apply (binomial_price_nonnegative 100 100 1 0.02 0.2 1 "American");
    try lra; try lia.
  replace (1 / INR 1) with 1 by (simpl; lra). rewrite sqrt_1. lra.
Defined.

(** X6. The lattice price is homogeneous of degree one in spot and strike:
    for [T > 0], [sigma > 0] and [steps >= 1], scaling both by [c > 0] scales
    what [binomial_call] and [binomial_put] return by [c], for every style,
    American included. *)
Theorem binomial_price_scales
  (S K T r sigma c : R) (steps : nat) (option_type : string) :
  0 < T -> 0 < sigma -> 0 < c -> (1 <= steps)%nat ->
  exists v w : R,
    binomial_call S K T r sigma steps option_type = Ok v /\
    binomial_call (c * S) (c * K) T r sigma steps option_type = Ok (c * v) /\
    binomial_put S K T r sigma steps option_type = Ok w /\
    binomial_put (c * S) (c * K) T r sigma steps option_type = Ok (c * w).
Proof.
  intros _ _ Hc Hsteps. unfold binomial_call, binomial_put.
  rewrite !price_returns by assumption.
  do 2 eexists. split; [reflexivity|]. split; [|split; [reflexivity|]].
  - f_equal. apply (values_scale _ steps option_type S r sigma _ _ c) with (m := steps);
      try lia; try lra. intros x. ring.
  - f_equal. apply (values_scale _ steps option_type S r sigma _ _ c) with (m := steps);
      try lia; try lra. intros x. ring.
Qed.

Lemma binomial_price_scales_witness :
  exists v w : R,
    binomial_call 100 90 1 0.02 0.2 3 "American" = Ok v /\
    binomial_call (2 * 100) (2 * 90) 1 0.02 0.2 3 "American" = Ok (2 * v) /\
    binomial_put 100 90 1 0.02 0.2 3 "American" = Ok w /\
    binomial_put (2 * 100) (2 * 90) 1 0.02 0.2 3 "American" = Ok (2 * w).
Proof.
  apply (binomial_price_scales 100 90 1 0.02 0.2 2 3 "American");
    try lra; lia.
Defined.

(** *** The sensitivities *)





End LatticeProperties.

(** ** The closed forms *)

Module AnalyticProperties.
Import BlackScholes BlackScholesFacts.

Lemma float_le_scale (c x : R) : 0 < c -> float_le (c * x) 0 = float_le x 0.
Proof.
  intros Hc. unfold float_le.
  destruct (Rle_dec (c * x) 0), (Rle_dec x 0); auto; exfalso; nra.
Qed.

Lemma degenerate_cases (S K T sigma : R) :
  (degenerate S K T sigma = true /\ (T <= 0 \/ sigma <= 0 \/ S <= 0 \/ K <= 0))
  \/ (degenerate S K T sigma = false /\ 0 < S /\ 0 < K /\ 0 < T /\ 0 < sigma).
Proof.
  destruct (Rle_dec T 0); [left; split; [apply degenerate_true|]; auto|].
  destruct (Rle_dec sigma 0); [left; split; [apply degenerate_true|]; auto|].
  destruct (Rle_dec S 0); [left; split; [apply degenerate_true|]; auto|].
  destruct (Rle_dec K 0); [left; split; [apply degenerate_true|]; auto|].
  right. split; [apply degenerate_false|]; lra.
Qed.

(** X8. The Black-Scholes prices are homogeneous of degree one in spot and
    strike: scaling both by [c > 0] scales what [black_scholes_call] and
    [black_scholes_put] return by [c], on every input, the degenerate ones
    (which return 0.0) included. *)
Theorem black_scholes_price_scales (S K T r sigma c : R) :
  0 < c ->
  exists v w : R,
    black_scholes_call S K T r sigma = Ok v /\
    black_scholes_call (c * S) (c * K) T r sigma = Ok (c * v) /\
    black_scholes_put S K T r sigma = Ok w /\
    black_scholes_put (c * S) (c * K) T r sigma = Ok (c * w).
Proof.
  intros Hc. unfold black_scholes_call, black_scholes_put.
  assert (E : degenerate (c * S) (c * K) T sigma = degenerate S K T sigma).
  { unfold degenerate. now rewrite !float_le_scale. }
  rewrite E.
  destruct (degenerate_cases S K T sigma) as [[-> _]|[-> [HS [HK _]]]].
  - exists 0, 0. rewrite Rmult_0_r. auto.
  - rewrite !float_div_nonzero by nra. unfold bind.
    replace (c * S / (c * K)) with (S / K) by (field; lra).
    do 2 eexists. split; [reflexivity|]. split; [f_equal; ring|].
    split; [reflexivity|]. f_equal. ring.
Qed.

Lemma black_scholes_price_scales_witness :
  exists v w : R,
    black_scholes_call 100 90 1 0.02 0.2 = Ok v /\
    black_scholes_call (2 * 100) (2 * 90) 1 0.02 0.2 = Ok (2 * v) /\
    black_scholes_put 100 90 1 0.02 0.2 = Ok w /\
    black_scholes_put (2 * 100) (2 * 90) 1 0.02 0.2 = Ok (2 * w).
Proof.
  apply (black_scholes_price_scales 100 90 1 0.02 0.2 2). lra.
Defined.

(** X9. The sensitivities of the put follow from those of the call: on
    valid inputs both functions return their five entries, with the same
    gamma and vega, [delta_put = delta_call - 1],
    [theta_call - theta_put = - r K e^(-rT)] and
    [rho_call - rho_put = K T e^(-rT)]. *)
Theorem black_scholes_greeks_parity (S K T r sigma : R) :
  0 < S -> 0 < K -> 0 < T -> 0 < sigma ->
  exists dc gc tc vc rc dp gp tp vp rp : R,
    black_scholes_greeks_call S K T r sigma
    = Ok [("delta", dc); ("gamma", gc); ("theta", tc); ("vega", vc); ("rho", rc)] /\
    black_scholes_greeks_put S K T r sigma
    = Ok [("delta", dp); ("gamma", gp); ("theta", tp); ("vega", vp); ("rho", rp)] /\
    dp = dc - 1 /\ gp = gc /\ vp = vc /\
    tc - tp = - (r * K * exp (- (r * T))) /\
    rc - rp = K * T * exp (- (r * T)).
Proof.
  intros _ HK _ _. unfold black_scholes_greeks_call, black_scholes_greeks_put.
  rewrite float_div_nonzero by lra. unfold bind. cbv zeta.
  do 10 eexists. split; [reflexivity|]. split; [reflexivity|].
  rewrite !norm_cdf_symmetry. replace (- r * T) with (- (r * T)) by ring.
  repeat split; ring.
Qed.

Lemma black_scholes_greeks_parity_witness :
  exists dc gc tc vc rc dp gp tp vp rp : R,
    black_scholes_greeks_call 100 100 1 0.02 0.2
    = Ok [("delta", dc); ("gamma", gc); ("theta", tc); ("vega", vc); ("rho", rc)] /\
    black_scholes_greeks_put 100 100 1 0.02 0.2
    = Ok [("delta", dp); ("gamma", gp); ("theta", tp); ("vega", vp); ("rho", rp)] /\
    dp = dc - 1 /\ gp = gc /\ vp = vc /\
    tc - tp = - (0.02 * 100 * exp (- (0.02 * 1))) /\
    rc - rp = 100 * 1 * exp (- (0.02 * 1)).
Proof.
  apply (black_scholes_greeks_parity 100 100 1 0.02 0.2); lra.
Defined.

(** X10. The sensitivities have no guard: [black_scholes_greeks_call] and
    [black_scholes_greeks_put] raise [ZeroDivisionError] exactly when the
    strike is zero, an input on which both price functions return 0.0. *)
Theorem black_scholes_greeks_unguarded (S K T r sigma : R) :
  (black_scholes_greeks_call S K T r sigma
   = Raise (ZeroDivisionError "float division by zero") <-> K = 0) /\
  (black_scholes_greeks_put S K T r sigma
   = Raise (ZeroDivisionError "float division by zero") <-> K = 0) /\
  (K = 0 ->
   black_scholes_call S K T r sigma = Ok 0 /\
   black_scholes_put S K T r sigma = Ok 0).
Proof.
  unfold black_scholes_greeks_call, black_scholes_greeks_put, float_div.
  destruct (Req_EM_T K 0) as [HK|HK]; cbn [bind].
  - unfold black_scholes_call, black_scholes_put.
    rewrite degenerate_true by lra. repeat split; auto.
  - repeat split; try discriminate; try contradiction.
Qed.

Lemma black_scholes_greeks_unguarded_witness :
  black_scholes_call 100 0 1 0.02 0.2 = Ok 0 /\
  black_scholes_put 100 0 1 0.02 0.2 = Ok 0.
Proof.
  apply (proj2 (proj2 (black_scholes_greeks_unguarded 100 0 1 0.02 0.2))).
  reflexivity.
Defined.

Lemma norm_pdf_positive (x : R) : 0 < norm_pdf x.
Proof.
  unfold norm_pdf. apply Rdiv_lt_0_compat; [apply exp_pos|].
  apply sqrt_lt_R0. pose proof PI_RGT_0. lra.
Qed.

(** X11. On valid inputs gamma and vega, which the call and the put share,
    are strictly positive. *)
Theorem black_scholes_gamma_vega_positive (S K T r sigma : R) :
  0 < S -> 0 < K -> 0 < T -> 0 < sigma ->
  exists gc gp : dict,
    black_scholes_greeks_call S K T r sigma = Ok gc /\
    black_scholes_greeks_put S K T r sigma = Ok gp /\
    exists gamma vega : R,
      dict_get gc "gamma" = Some gamma /\ dict_get gp "gamma" = Some gamma /\
      dict_get gc "vega" = Some vega /\ dict_get gp "vega" = Some vega /\
      0 < gamma /\ 0 < vega.
Proof.
  intros HS HK HT Hs. unfold black_scholes_greeks_call, black_scholes_greeks_put.
  rewrite float_div_nonzero by lra. unfold bind. cbv zeta.
  do 2 eexists. split; [reflexivity|]. split; [reflexivity|].
  do 2 eexists. cbn [dict_get String.eqb Ascii.eqb Bool.eqb].
  repeat (split; [reflexivity|]).
  pose proof (sqrt_lt_R0 T HT) as Hq.
  split.
  - apply Rdiv_lt_0_compat; [apply norm_pdf_positive|].
    repeat apply Rmult_lt_0_compat; assumption.
  - apply Rmult_lt_0_compat; [|assumption].
    apply Rmult_lt_0_compat; [assumption | apply norm_pdf_positive].
Qed.

Lemma black_scholes_gamma_vega_positive_witness :
  exists gc gp : dict,
    black_scholes_greeks_call 100 100 1 0.02 0.2 = Ok gc /\
    black_scholes_greeks_put 100 100 1 0.02 0.2 = Ok gp /\
    exists gamma vega : R,
      dict_get gc "gamma" = Some gamma /\ dict_get gp "gamma" = Some gamma /\
      dict_get gc "vega" = Some vega /\ dict_get gp "vega" = Some vega /\
      0 < gamma /\ 0 < vega.
Proof.
  apply (black_scholes_gamma_vega_positive 100 100 1 0.02 0.2); lra.
Defined.

End AnalyticProperties.

(** ** The simulation *)

Module SimulationProperties.
Import MonteCarlo MonteCarloFacts.

Lemma sum_bounds (f : nat -> R) (a b : R) (n : nat) :
  (forall i, a <= f i <= b) ->
  a * INR (S n) <= sum_f_R0 f n <= b * INR (S n).
Proof.
  intros H. induction n as [|n IH].
  - simpl. specialize (H 0%nat). lra.
  - rewrite tech5, (S_INR (S n)). specialize (H (S n)). lra.
Qed.

Lemma mean_bounds (f : nat -> R) (a b : R) (N : nat) :
  (1 <= N)%nat -> (forall i, a <= f i <= b) ->
  a <= Reference.mean_of N f <= b.
Proof.
  intros HN H. unfold Reference.mean_of.
  destruct N as [|n]; [lia|]. replace (S n - 1)%nat with n by lia.
  pose proof (sum_bounds f a b n H) as [Hlo Hhi].
  assert (Hpos : 0 < INR (S n)) by (apply lt_0_INR; lia).
  split.
  - apply Rmult_le_reg_r with (INR (S n)); [assumption|].
    unfold Rdiv. rewrite Rmult_assoc, Rinv_l; lra.
  - apply Rmult_le_reg_r with (INR (S n)); [assumption|].
    unfold Rdiv. rewrite Rmult_assoc, Rinv_l; lra.
Qed.

Lemma mean_nonnegative (f : nat -> R) (N : nat) :
  (forall i, 0 <= f i) -> 0 <= Reference.mean_of N f.
Proof.
  intros H. unfold Reference.mean_of, Rdiv.
  apply Rmult_le_pos; [now apply cond_pos_sum|].
  destruct N as [|n]; [simpl; rewrite Rinv_0; lra|].
  left. apply Rinv_0_lt_compat, lt_0_INR. lia.
Qed.

Lemma mean_ext (N : nat) (f h : nat -> R) :
  (forall i, f i = h i) -> Reference.mean_of N f = Reference.mean_of N h.
Proof.
  intros H. unfold Reference.mean_of. f_equal. apply sum_eq. intros i _. apply H.
Qed.

Lemma mean_scale (f : nat -> R) (c : R) (N : nat) :
  Reference.mean_of N (fun i => c * f i) = c * Reference.mean_of N f.
Proof.
  unfold Reference.mean_of, Rdiv. rewrite <- Rmult_assoc. f_equal.
  rewrite scal_sum. apply sum_eq. intros i _. ring.
Qed.

Lemma mean_shift (f : nat -> R) (k : R) (N : nat) :
  (1 <= N)%nat ->
  Reference.mean_of N (fun i => f i - k) = Reference.mean_of N f - k.
Proof.
  intros HN. unfold Reference.mean_of.
  destruct N as [|n]; [lia|]. replace (S n - 1)%nat with n by lia.
  assert (Hpos : INR (S n) <> 0) by (apply not_0_INR; lia).
  rewrite <- LatticeProperties.sum_minus, sum_cte. field. assumption.
Qed.

Lemma european_estimates (S K T r sigma : R) (N steps : nat) (g : rng) :
  (1 <= N)%nat ->
  fst (monte_carlo_call S K T r sigma N steps "European" g) =
  Ok (exp (- (r * T)) *
      Reference.mean_of N
        (fun i => Rmax (Reference.terminal_price S T r sigma (g i) - K) 0)) /\
  fst (monte_carlo_put S K T r sigma N steps "European" g) =
  Ok (exp (- (r * T)) *
      Reference.mean_of N
        (fun i => Rmax (K - Reference.terminal_price S T r sigma (g i)) 0)).
Proof.
  intros HN. unfold monte_carlo_call, monte_carlo_put.
  split; now apply price_european_estimate.
Qed.

Lemma terminal_price_nonnegative (S T r sigma z : R) :
  0 <= S -> 0 <= Reference.terminal_price S T r sigma z.
Proof.
  intros HS. unfold Reference.terminal_price.
  apply Rmult_le_pos; [assumption | left; apply exp_pos].
Qed.

(** X12. For [N >= 1] paths and [T >= 0] the European estimates are within the bounds of
    the payoffs: the call estimate is non-negative, and with a non-negative
    spot and strike the put estimate lies between 0 and [K e^(-rT)],
    whatever the draws. *)
Theorem monte_carlo_european_bounds
  (S K T r sigma : R) (N steps : nat) (g : rng) :
  (1 <= N)%nat -> 0 <= S -> 0 <= K -> 0 <= T ->
  exists c q : R,
    fst (monte_carlo_call S K T r sigma N steps "European" g) = Ok c /\
    fst (monte_carlo_put S K T r sigma N steps "European" g) = Ok q /\
    0 <= c /\ 0 <= q <= K * exp (- (r * T)).
Proof.
  intros HN HS HK _.
  destruct (european_estimates S K T r sigma N steps g HN) as [Hc Hq].
  rewrite Hc, Hq. do 2 eexists. split; [reflexivity|]. split; [reflexivity|].
  pose proof (exp_pos (- (r * T))) as He.
  split.
  - apply Rmult_le_pos; [lra|]. apply mean_nonnegative.
    intros i. apply Rmax_r.
  - destruct (mean_bounds
                (fun i => Rmax (K - Reference.terminal_price S T r sigma (g i)) 0)
                0 K N HN) as [Hlo Hhi].
    { intros i. split; [apply Rmax_r|].
      apply Rmax_lub; [|assumption].
      pose proof (terminal_price_nonnegative S T r sigma (g i) HS). lra. }
    split; [apply Rmult_le_pos; lra|].
    rewrite (Rmult_comm K). apply Rmult_le_compat_l; lra.
Qed.

Lemma monte_carlo_european_bounds_witness :
  exists c q : R,
    fst (monte_carlo_call 100 100 1 0.02 0.2 2 100 "European" alternating) = Ok c /\
    fst (monte_carlo_put 100 100 1 0.02 0.2 2 100 "European" alternating) = Ok q /\
    0 <= c /\ 0 <= q <= 100 * exp (- (0.02 * 1)).
Proof.
  apply (monte_carlo_european_bounds 100 100 1 0.02 0.2 2 100 alternating);
    [lia | lra | lra | lra].
Defined.

(** X13. Run on the same draws, with [T >= 0], the European call and put
    estimates satisfy
    put-call parity against the sample mean of the terminal prices:
    call minus put is [e^(-rT) (mean(S_T) - K)], path by path exact. *)
Theorem monte_carlo_european_parity
  (S K T r sigma : R) (N steps : nat) (g : rng) :
  (1 <= N)%nat -> 0 <= T ->
  exists c q : R,
    fst (monte_carlo_call S K T r sigma N steps "European" g) = Ok c /\
    fst (monte_carlo_put S K T r sigma N steps "European" g) = Ok q /\
    c - q = exp (- (r * T)) *
            (Reference.mean_of N
               (fun i => Reference.terminal_price S T r sigma (g i)) - K).
Proof.
  intros HN _.
  destruct (european_estimates S K T r sigma N steps g HN) as [Hc Hq].
  rewrite Hc, Hq. do 2 eexists. split; [reflexivity|]. split; [reflexivity|].
  rewrite <- Rmult_minus_distr_l. f_equal.
  rewrite <- (mean_shift (fun i => Reference.terminal_price S T r sigma (g i)) K)
    by assumption.
  unfold Reference.mean_of, Rdiv. rewrite <- Rmult_minus_distr_r. f_equal.
  rewrite LatticeProperties.sum_minus. apply sum_eq. intros i _.
  replace (K - Reference.terminal_price S T r sigma (g i))
    with (- (Reference.terminal_price S T r sigma (g i) - K)) by ring.
  apply LatticeProperties.Rmax_parity.
Qed.

Lemma monte_carlo_european_parity_witness :
  exists c q : R,
    fst (monte_carlo_call 100 100 1 0.02 0.2 2 100 "European" alternating) = Ok c /\
    fst (monte_carlo_put 100 100 1 0.02 0.2 2 100 "European" alternating) = Ok q /\
    c - q = exp (- (0.02 * 1)) *
            (Reference.mean_of 2
               (fun i => Reference.terminal_price 100 1 0.02 0.2 (alternating i))
             - 100).
Proof.
  apply (monte_carlo_european_parity 100 100 1 0.02 0.2 2 100 alternating);
    [lia | lra].
Defined.

(** X14. On the same draws, with [T >= 0], the European estimates are
    homogeneous of degree one in spot and strike: scaling both by [c >= 0] scales the estimate of
    [monte_carlo_call] and of [monte_carlo_put] by [c]. *)
Theorem monte_carlo_european_scales
  (S K T r sigma c : R) (N steps : nat) (g : rng) :
  (1 <= N)%nat -> 0 <= T -> 0 <= c ->
  exists v w : R,
    fst (monte_carlo_call S K T r sigma N steps "European" g) = Ok v /\
    fst (monte_carlo_call (c * S) (c * K) T r sigma N steps "European" g)
    = Ok (c * v) /\
    fst (monte_carlo_put S K T r sigma N steps "European" g) = Ok w /\
    fst (monte_carlo_put (c * S) (c * K) T r sigma N steps "European" g)
    = Ok (c * w).
Proof.
  intros HN _ Hc.
  destruct (european_estimates S K T r sigma N steps g HN) as [Hv Hw].
  destruct (european_estimates (c * S) (c * K) T r sigma N steps g HN)
    as [Hv' Hw'].
  rewrite Hv, Hw, Hv', Hw'.
  do 2 eexists. split; [reflexivity|]. split; [|split; [reflexivity|]].
  - f_equal.
    rewrite (mean_ext N
               (fun i => Rmax (Reference.terminal_price (c * S) T r sigma (g i)
                               - c * K) 0)
               (fun i => c * Rmax (Reference.terminal_price S T r sigma (g i) - K) 0)).
    + rewrite mean_scale. ring.
    + intros i. rewrite <- RmaxRmult by assumption. f_equal; [|ring].
      unfold Reference.terminal_price. ring.
  - f_equal.
    rewrite (mean_ext N
               (fun i => Rmax (c * K - Reference.terminal_price (c * S) T r sigma
                                         (g i)) 0)
               (fun i => c * Rmax (K - Reference.terminal_price S T r sigma (g i)) 0)).
    + rewrite mean_scale. ring.
    + intros i. rewrite <- RmaxRmult by assumption. f_equal; [|ring].
      unfold Reference.terminal_price. ring.
Qed.

Lemma monte_carlo_european_scales_witness :
  exists v w : R,
    fst (monte_carlo_call 100 90 1 0.02 0.2 2 100 "European" alternating) = Ok v /\
    fst (monte_carlo_call (2 * 100) (2 * 90) 1 0.02 0.2 2 100 "European" alternating)
    = Ok (2 * v) /\
    fst (monte_carlo_put 100 90 1 0.02 0.2 2 100 "European" alternating) = Ok w /\
    fst (monte_carlo_put (2 * 100) (2 * 90) 1 0.02 0.2 2 100 "European" alternating)
    = Ok (2 * w).
Proof.
  apply (monte_carlo_european_scales 100 90 1 0.02 0.2 2 2 100 alternating);
    [lia | lra | lra].
Defined.





(** *** The Asian paths *)

Lemma map2_fuse {A B C : Type} (F : A -> B -> C) (G : A -> B -> A)
  (l : list A) (l' : list B) :
  map2 F (map2 G l l') l' = map2 (fun a b => F (G a b) b) l l'.
Proof.
  revert l'. induction l as [|a l IH]; intros [|b l']; simpl; auto.
  now rewrite IH.
Qed.

Lemma map2_left {A B : Type} (l : list A) (l' : list B) :
  List.length l = List.length l' -> map2 (fun a _ => a) l l' = l.
Proof.
  revert l'. induction l as [|a l IH]; intros [|b l'] H; simpl in *;
    try discriminate; auto.
  f_equal. apply IH. lia.
Qed.

Lemma map2_repeat {A B C : Type} (f : A -> B -> C) (a : A) (l' : list B) :
  map2 f (repeat a (List.length l')) l' = map (f a) l'.
Proof. induction l' as [|b l' IH]; simpl; [reflexivity | now rewrite IH]. Qed.

Section Rows.

Variable drift : R.

(** The update of one row at time [t], as [path_step] applies it. *)
Let row_step (drow row : list R) (t : nat) : list R :=
  set_item t (nth (t - 1) row 0 * exp (drift + nth (t - 1) drow 0)) row.

Lemma fold_rows (diffusion : list (list R)) (ts : list nat)
  (S_paths : list (list R)) :
  List.length S_paths = List.length diffusion ->
  fold_left (path_step drift diffusion) ts S_paths
  = map2 (fun row drow => fold_left (row_step drow) ts row) S_paths diffusion.
Proof.
  revert S_paths. induction ts as [|t ts IH]; intros S_paths Hlen.
  - simpl. symmetry. now apply map2_left.
  - simpl. rewrite IH.
    + unfold path_step. now rewrite map2_fuse.
    + unfold path_step. rewrite map2_length. lia.
Qed.

Lemma set_item_app (l rest : list R) (x v : R) :
  set_item (List.length l) v (l ++ x :: rest) = l ++ v :: rest.
Proof. induction l as [|a l IH]; simpl; [reflexivity | now rewrite IH]. Qed.

Lemma path_prices_length (s : R) (incs : list R) :
  List.length (Reference.path_prices drift s incs) = (List.length incs + 1)%nat.
Proof.
  revert s. induction incs as [|z incs IH]; intros s; simpl; [reflexivity|].
  now rewrite IH.
Qed.

Lemma path_prices_next (s : R) (incs : list R) (k : nat) :
  (k < List.length incs)%nat ->
  nth (k + 1) (Reference.path_prices drift s incs) 0
  = nth k (Reference.path_prices drift s incs) 0 * exp (drift + nth k incs 0).
Proof.
  revert s k. induction incs as [|z incs IH]; intros s k Hk; simpl in Hk; [lia|].
  destruct k as [|k].
  - simpl. destruct incs; reflexivity.
  - cbn [Nat.add Reference.path_prices nth]. apply IH. lia.
Qed.

Lemma firstn_snoc (l : list R) (k : nat) :
  (k < List.length l)%nat -> firstn (k + 1) l = firstn k l ++ [nth k l 0].
Proof.
  revert k. induction l as [|a l IH]; intros k Hk; simpl in Hk; [lia|].
  destruct k as [|k]; [reflexivity|].
  cbn [Nat.add firstn nth app]. f_equal. apply IH. lia.
Qed.

Lemma row_fold_prefix (s : R) (incs : list R) (k : nat) :
  (k <= List.length incs)%nat ->
  fold_left (row_step incs) (seq 1 k) (s :: repeat 0 (List.length incs))
  = firstn (k + 1) (Reference.path_prices drift s incs)
    ++ repeat 0 (List.length incs - k).
Proof.
  induction k as [|k IH]; intros Hk.
  - simpl. rewrite Nat.sub_0_r. destruct incs; reflexivity.
  - rewrite seq_S, fold_left_app, IH by lia. cbn [fold_left].
    unfold row_step.
    replace (1 + k - 1)%nat with k by lia.
    assert (Hl : List.length (firstn (k + 1) (Reference.path_prices drift s incs))
                 = (k + 1)%nat).
    { rewrite length_firstn, path_prices_length. lia. }
    rewrite app_nth1 by (rewrite Hl; lia).
    rewrite nth_firstn. destruct (Nat.ltb_spec k (k + 1)); [|lia].
    rewrite <- path_prices_next by lia.
    replace (List.length incs - k)%nat
      with (Datatypes.S (List.length incs - Datatypes.S k)) by lia.
    cbn [repeat].
    replace (1 + k)%nat with
      (List.length (firstn (k + 1) (Reference.path_prices drift s incs)))
      by (rewrite Hl; lia).
    rewrite set_item_app.
    replace (Datatypes.S k + 1)%nat with (k + 1 + 1)%nat by lia.
    rewrite (firstn_snoc _ (k + 1)) by (rewrite path_prices_length; lia).
    now rewrite <- app_assoc.
Qed.

Lemma row_fold (s : R) (incs : list R) :
  fold_left (row_step incs) (seq 1 (List.length incs))
    (s :: repeat 0 (List.length incs))
  = Reference.path_prices drift s incs.
Proof.
  rewrite row_fold_prefix by lia.
  rewrite Nat.sub_diag, app_nil_r. apply firstn_all2.
  rewrite path_prices_length. lia.
Qed.

End Rows.

Lemma price_asian_run (intrinsic : R -> R) (S T r sigma : R) (N steps : nat)
  (g : rng) :
  (1 <= steps)%nat ->
  let dt := T / INR steps in
  let drift := (r - 0.5 * sigma ^ 2) * dt in
  let path i :=
    Reference.path_prices drift S
      (map (fun t => sigma * sqrt dt * g (i * steps + t)%nat) (seq 0 steps)) in
  price intrinsic S T r sigma N steps "Asian" g
  = (Ok (exp (- r * T) *
         np_mean (map (fun i => Rmax (intrinsic (np_mean (path i))) 0) (seq 0 N))),
     advance (N * steps) g).
Proof.
  intros Hsteps dt drift path. unfold price.
  cbn [String.eqb Ascii.eqb Bool.eqb].
  unfold sbind, lift. rewrite truediv_pos by assumption. fold dt.
  unfold randn2, ret. fold drift. do 3 f_equal.
  set (Z := map (fun i => map (fun t => g (i * steps + t)%nat) (seq 0 steps))
              (seq 0 N)).
  set (diffusion := map (map (fun z => sigma * sqrt dt * z)) Z).
  assert (HN : List.length diffusion = N)
    by (unfold diffusion, Z; now rewrite !length_map, length_seq).
  rewrite map_repeat. replace (steps + 1)%nat with (Datatypes.S steps) by lia.
  cbn [repeat set_item]. rewrite <- HN at 1.
  rewrite fold_rows by (rewrite repeat_length; reflexivity).
  rewrite map2_repeat, !map_map. unfold diffusion, Z. rewrite !map_map.
  f_equal. apply map_ext. intros i. do 3 f_equal. unfold path.
  rewrite (map_map (fun t => g (i * steps + t)%nat)
             (fun z => sigma * sqrt dt * z)).
  set (incs := map (fun t => sigma * sqrt dt * g (i * steps + t)%nat) (seq 0 steps)).
  assert (Hl : List.length incs = steps)
    by (unfold incs; now rewrite length_map, length_seq).
  rewrite <- Hl. apply (row_fold drift S incs).
Qed.

(** X17. The Asian style with [N >= 1] paths, [steps >= 1] and [T >= 0]: each path
    starts at [S] and multiplies its last price by
    [exp((r - sigma^2/2) dt + sigma sqrt(dt) Z)] at every step, [dt = T/steps],
    its draws being the next [steps] variates of the generator; the estimate
    is [e^(-rT)] times the mean over the paths of [max(avg - K, 0)] (of
    [max(K - avg, 0)] for the put), [avg] being the mean of the [steps + 1]
    prices of the path; the generator is left advanced by [N * steps]. *)
Theorem monte_carlo_asian_estimate
  (S K T r sigma : R) (N steps : nat) (g : rng) :
  (1 <= N)%nat -> (1 <= steps)%nat -> 0 <= T ->
  let dt := T / INR steps in
  let drift := (r - sigma ^ 2 / 2) * dt in
  let path i :=
    Reference.path_prices drift S
      (map (fun t => sigma * sqrt dt * g (i * steps + t)%nat) (seq 0 steps)) in
  fst (monte_carlo_call S K T r sigma N steps "Asian" g)
  = Ok (exp (- (r * T)) *
        Reference.mean_of N (fun i => Rmax (np_mean (path i) - K) 0)) /\
  fst (monte_carlo_put S K T r sigma N steps "Asian" g)
  = Ok (exp (- (r * T)) *
        Reference.mean_of N (fun i => Rmax (K - np_mean (path i)) 0)) /\
  (forall i : nat, List.length (path i) = (steps + 1)%nat) /\
  snd (monte_carlo_call S K T r sigma N steps "Asian" g) = advance (N * steps) g /\
  snd (monte_carlo_put S K T r sigma N steps "Asian" g) = advance (N * steps) g.
Proof.
  intros HN Hsteps _ dt drift path. unfold monte_carlo_call, monte_carlo_put.
  rewrite !price_asian_run by assumption. cbn [fst snd].
  rewrite !np_mean_indexed by assumption.
  replace (- r * T) with (- (r * T)) by ring. fold dt.
  replace ((r - 0.5 * sigma ^ 2) * dt) with drift by (unfold drift; lra).
  fold path. repeat split.
  intros i. unfold path. now rewrite path_prices_length, length_map, length_seq.
Qed.

Lemma monte_carlo_asian_estimate_witness :
  let dt := 1 / INR 2 in
  let drift := (0.02 - 0.2 ^ 2 / 2) * dt in
  let path i :=
    Reference.path_prices drift 100
      (map (fun t => 0.2 * sqrt dt * alternating (i * 2 + t)%nat) (seq 0 2)) in
  fst (monte_carlo_call 100 100 1 0.02 0.2 3 2 "Asian" alternating)
  = Ok (exp (- (0.02 * 1)) *
        Reference.mean_of 3 (fun i => Rmax (np_mean (path i) - 100) 0)) /\
  fst (monte_carlo_put 100 100 1 0.02 0.2 3 2 "Asian" alternating)
  = Ok (exp (- (0.02 * 1)) *
        Reference.mean_of 3 (fun i => Rmax (100 - np_mean (path i)) 0)) /\
  (forall i : nat, List.length (path i) = (2 + 1)%nat) /\
  snd (monte_carlo_call 100 100 1 0.02 0.2 3 2 "Asian" alternating)
  = advance (3 * 2) alternating /\
  snd (monte_carlo_put 100 100 1 0.02 0.2 3 2 "Asian" alternating)
  = advance (3 * 2) alternating.
Proof.
  apply (monte_carlo_asian_estimate 100 100 1 0.02 0.2 3 2 alternating);
    [lia | lia | lra].
Defined.

End SimulationProperties.
